(** * NCL wavefront simulator (app.py): shallow embedding and properties

    The development follows the simulation core of [app.py]: dual-rail
    signals, the threshold evaluator [thmn], the [Gate] and [Circuit]
    data classes, [evaluate_gate], the "Run Step-by-Step Simulation"
    handler and the "Add Gate" handler.

    Python dictionaries used as maps ([state], [circ.inputs],
    [circ.outputs], [final_outputs]) are finite maps; [circ.gates], whose
    iteration order drives the evaluation pass, is the list of its items in
    insertion order.  The float [t] only ever holds multiples of 0.5, which
    are exact in binary floating point, so it is carried as a rational. *)

From Stdlib Require Import ZArith QArith Qround String Ascii List Lia Lqa.
From stdpp Require Import base option list gmap strings fin_maps pretty.

Local Open Scope string_scope.
Local Open Scope Z_scope.

(** ** Basic NCL primitives *)

(** [Signal = Tuple[int, int]]. *)
Abbreviation Signal := (Z * Z)%type.

Definition NULL : Signal := (0, 0).
Definition DATA1 : Signal := (1, 0).
Definition DATA0 : Signal := (0, 1).
Definition QUAD : Signal := (1, 1).

(** [sig == (0,0)]: tuple equality, component by component. *)
Definition is_null (sig : Signal) : bool :=
  (fst sig =? 0) && (snd sig =? 0).

(** [sig != (0,0)]. *)
Definition is_data (sig : Signal) : bool := negb (is_null sig).

(** [sum(1 for x in inputs if is_data(x))]: the running sum starts at 0 and
    adds 1 for every element the generator lets through. *)
Definition count_data (inputs : list Signal) : Z :=
  fold_left (fun acc x => if is_data x then acc + 1 else acc) inputs 0.

(** [return (1,0) if count >= m else (0,0)]. *)
Definition thmn (inputs : list Signal) (m : Z) : Signal :=
  let count := count_data inputs in
  if m <=? count then (1, 0) else (0, 0).

Definition th22 (a b : Signal) : Signal := thmn [a; b] 2.
Definition th12 (a b : Signal) : Signal := thmn [a; b] 1.
Definition th23 (a b c : Signal) : Signal := thmn [a; b; c] 2.

(** ** Data classes *)

Record Gate : Type := mkGate {
  gate_id : string;
  kind : string;
  gate_inputs : list string;
  delay : Q
}.

Record Circuit : Type := mkCircuit {
  inputs : gmap string Signal;
  gates : list (string * Gate);
  outputs : gmap string string
}.

(** [Circuit()]: every field is an empty dictionary. *)
Definition empty_circuit : Circuit := mkCircuit ∅ [] ∅.

(** ** Exceptions *)

Inductive exn : Type := TypeError.

Inductive res (A : Type) : Type :=
  | Ok (a : A)
  | Raise (e : exn).
Arguments Ok {A} a.
Arguments Raise {A} e.

#[global] Instance res_ret : MRet res := fun A a => Ok a.

#[global] Instance res_bind : MBind res := fun A B k x =>
  match x with
  | Ok a => k a
  | Raise e => Raise e
  end.

(** Calling a two-parameter (three-parameter) function with an unpacked
    argument list, [f( *args )]: any other number of positional arguments is
    a [TypeError]. *)
Definition call2 (f : Signal → Signal → Signal) (args : list Signal) : res Signal :=
  match args with
  | [a; b] => Ok (f a b)
  | _ => Raise TypeError
  end.

Definition call3 (f : Signal → Signal → Signal → Signal) (args : list Signal) : res Signal :=
  match args with
  | [a; b; c] => Ok (f a b c)
  | _ => Raise TypeError
  end.

(** ** Strings *)

(** [s.replace("THm", "")]: every non-overlapping occurrence, scanning from
    the left, is dropped. *)
Fixpoint replace_THm (s : string) : string :=
  match s with
  | String "T" (String "H" (String "m" rest)) => replace_THm rest
  | String c rest => String c (replace_THm rest)
  | EmptyString => EmptyString
  end.

(** [s.startswith("THm")]. *)
Definition startswith_THm (s : string) : bool := String.prefix "THm" s.

(** ** The simulator engine *)

(** One entry of [wave_history]: [{"time": ..., "signals": ...}]. *)
Record Snapshot : Type := mkSnapshot {
  time : Q;
  signals : gmap string Signal
}.

(** [round(t, 3)]: nearest multiple of 1/1000, ties to the even one. *)
Definition round3 (t : Q) : Q :=
  let x := (t * 1000)%Q in
  let lo := Qfloor x in
  let n := match (x - inject_Z lo ?= 1 # 2)%Q with
           | Lt => lo
           | Gt => lo + 1
           | Eq => if Z.even lo then lo else lo + 1
           end in
  (n # 1000)%Q.

(** The first loop of [evaluate_gate]: one signal per source reference, the
    state's value when the reference is a key of the state and [(0,0)]
    otherwise. *)
Fixpoint gather (srcs : list string) (state_signals : gmap string Signal) : list Signal :=
  match srcs with
  | [] => []
  | src :: rest =>
      match state_signals !! src with
      | Some v => v :: gather rest state_signals
      | None => (0, 0) :: gather rest state_signals
      end
  end.

Section Engine.

(** The builtin [int] on strings: [None] stands for any exception it
    raises (all of them are caught by the bare [except]). *)
Variable int_of_str : string → option Z.

Definition evaluate_gate (g : Gate) (state_signals : gmap string Signal) : res Signal :=
  let sigs := gather (gate_inputs g) state_signals in
  if startswith_THm (kind g) then
    let m := match int_of_str (replace_THm (kind g)) with
             | Some m => m
             | None => Z.max 1 (Z.of_nat (length sigs))
             end in
    Ok (thmn sigs m)
  else if String.eqb (kind g) "TH22" then call2 th22 (take 2 sigs)
  else if String.eqb (kind g) "TH12" then call2 th12 (take 2 sigs)
  else if String.eqb (kind g) "TH23" then call3 th23 (take 3 sigs)
  else Ok (thmn sigs 1).

(** The body of [for gid, gate in circ.gates.items()].  [prev] is
    [state.get(gid, (None,None))]; the default differs from every signal,
    so [out_sig != prev] fails exactly when the state holds [out_sig]
    under [gid]. *)
Definition gate_step (gid : string) (gate : Gate)
    (state : gmap string Signal) (changed : bool) : res (gmap string Signal * bool) :=
  out_sig ← evaluate_gate gate state;
  let prev := state !! gid in
  if decide (prev = Some out_sig) then Ok (state, changed)
  else Ok (<[gid := out_sig]> state, true).

(** The whole [for] loop, over the items in insertion order. *)
Fixpoint gate_pass (gs : list (string * Gate))
    (state : gmap string Signal) (changed : bool) : res (gmap string Signal * bool) :=
  match gs with
  | [] => Ok (state, changed)
  | (gid, gate) :: rest =>
      '(state', changed') ← gate_step gid gate state changed;
      gate_pass rest state' changed'
  end.

(** [while changed and t < 20]. *)
Definition loop_cond (changed : bool) (t : Q) : bool :=
  changed && (if Qlt_le_dec t 20 then true else false).

(** The values of the loop variables when the loop is left. *)
Record LoopExit : Type := mkLoopExit {
  exit_state : gmap string Signal;
  exit_t : Q;
  exit_changed : bool
}.

(** The [while] loop.  [fuel] bounds the number of passes; [None] means
    the fuel ran out before the loop condition failed.  The history is
    returned in both outcomes, as [st.session_state.wave_history] keeps the
    snapshots appended before an exception. *)
Fixpoint sim_loop (fuel : nat) (gs : list (string * Gate))
    (state : gmap string Signal) (history : list Snapshot) (t : Q) (changed : bool)
    : option (list Snapshot * res LoopExit) :=
  if loop_cond changed t then
    match fuel with
    | O => None
    | S fuel' =>
        let step_snapshot := mkSnapshot (round3 t) state in
        let history' := (history ++ [step_snapshot])%list in
        match gate_pass gs state false with
        | Raise e => Some (history', Raise e)
        | Ok (state', changed') =>
            sim_loop fuel' gs state' history' (t + (1 # 2))%Q changed'
        end
    end
  else Some (history, Ok (mkLoopExit state t changed)).

(** [{out: state.get(src, state.get(src, (0,0))) for out, src in
    circ.outputs.items()}]. *)
Definition final_outputs_of (outs : gmap string string)
    (state : gmap string Signal) : gmap string Signal :=
  (fun src => default (0, 0) (state !! src)) <$> outs.

(** The session objects the handlers read and write. *)
Record Session : Type := mkSession {
  circuit : Circuit;
  wave_history : list Snapshot
}.

(** What a completed run shows: the timeline and the final outputs. *)
Record RunResult : Type := mkRunResult {
  timeline : list Snapshot;
  final_outputs : gmap string Signal
}.

(** The "Run Step-by-Step Simulation" handler.  It returns the session
    after the run together with the run's outcome. *)
Definition run_simulation (fuel : nat) (sess : Session)
    : option (Session * res RunResult) :=
  let circ := circuit sess in
  let state := inputs circ in
  match sim_loop fuel (gates circ) state [] 0%Q true with
  | None => None
  | Some (history, Raise e) => Some (mkSession circ history, Raise e)
  | Some (history, Ok ex) =>
      Some (mkSession circ history,
            Ok (mkRunResult history
                  (final_outputs_of (outputs circ) (exit_state ex))))
  end.

End Engine.

(** ** The circuit editor *)

(** [d[k] = v] on a dictionary kept as its list of items: an existing key
    keeps its place, a new one goes to the end. *)
Fixpoint dict_set {V : Type} (k : string) (v : V) (d : list (string * V))
    : list (string * V) :=
  match d with
  | [] => [(k, v)]
  | (k', v') :: rest =>
      if String.eqb k' k then (k', v) :: rest else (k', v') :: dict_set k v rest
  end.

(** [d.get(k)] on the same representation. *)
Fixpoint dict_get {V : Type} (k : string) (d : list (string * V)) : option V :=
  match d with
  | [] => None
  | (k', v') :: rest => if String.eqb k' k then Some v' else dict_get k rest
  end.

(** [s.split(",")]. *)
Fixpoint split_comma (s : string) : list string :=
  match s with
  | EmptyString => [EmptyString]
  | String c rest =>
      if Ascii.eqb c "," then EmptyString :: split_comma rest
      else match split_comma rest with
           | hd :: tl => String c hd :: tl
           | [] => [String c EmptyString]
           end
  end.

Section Editor.

(** The builtin [str.strip]. *)
Variable strip : string → string.

(** [[s.strip() for s in inputs_raw.split(",") if s.strip()]]. *)
Definition input_list_of (inputs_raw : string) : list string :=
  strip <$> filter (fun s => strip s ≠ "") (split_comma inputs_raw).

(** [str(m)] inside the f-string, [m] being an integer or [None]. *)
Definition format_m (m : option Z) : string :=
  match m with
  | Some z => pretty z
  | None => "None"
  end.

(** The "Add Gate" handler.  [m_input] is the value of the threshold
    widget, read only when the selected kind starts with [CUSTOM]. *)
Definition add_gate (gkind gid : string) (m_input : Z) (inputs_raw : string)
    (gdelay : Q) (sess : Session) : Session :=
  let m := if String.prefix "CUSTOM" gkind then Some m_input else None in
  let input_list := input_list_of inputs_raw in
  let kindname :=
    if String.eqb gkind "CUSTOM - THmn" then "THm" +:+ format_m m else gkind in
  let circ := circuit sess in
  mkSession
    (mkCircuit (inputs circ)
       (dict_set gid (mkGate gid kindname input_list gdelay) (gates circ))
       (outputs circ))
    (wave_history sess).

End Editor.

(** The "Load Example" handler of the demos page. *)
Definition example_circuit : Circuit :=
  mkCircuit
    (<["B" := (0, 1)]> (<["A" := (1, 0)]> ∅))
    [("G1", mkGate "G1" "TH12" ["A"; "B"] 1%Q);
     ("G2", mkGate "G2" "TH22" ["A"; "B"] (12 # 10)%Q)]
    (<["OUT" := "G2"]> ∅).

Definition load_example (sess : Session) : Session :=
  mkSession example_circuit (wave_history sess).

(** ** Encoders and labels *)

(** [{"NULL": (0,0), "DATA1": (1,0), "DATA0": (0,1)}.get(s, (0,0))]. *)
Definition encode_dual (s : string) : Signal :=
  if String.eqb s "NULL" then (0, 0)
  else if String.eqb s "DATA1" then (1, 0)
  else if String.eqb s "DATA0" then (0, 1)
  else (0, 0).

(** [{"NULL(00)": (0,0), "01": (0,1), "10": (1,0), "11": (1,1)}.get(s, (0,0))]. *)
Definition encode_quad (s : string) : Signal :=
  if String.eqb s "NULL(00)" then (0, 0)
  else if String.eqb s "01" then (0, 1)
  else if String.eqb s "10" then (1, 0)
  else if String.eqb s "11" then (1, 1)
  else (0, 0).

(** Equality of two tuples of integers. *)
Definition signal_eqb (a b : Signal) : bool :=
  (fst a =? fst b) && (snd a =? snd b).

(** [str] of a tuple of two integers. *)
Definition str_signal (sig : Signal) : string :=
  "(" +:+ pretty (fst sig) +:+ ", " +:+ pretty (snd sig) +:+ ")".

Definition signal_repr (sig : Signal) : string :=
  if signal_eqb sig (0, 0) then "NULL(00)"
  else if signal_eqb sig (1, 0) then "DATA1(10)"
  else if signal_eqb sig (0, 1) then "DATA0(01)"
  else if signal_eqb sig (1, 1) then "QUAD(11)"
  else str_signal sig.

(** ** The other handlers of the circuit editor *)

Section InputsEditor.

Variable strip : string → string.

(** [x or y] on strings. *)
Definition str_or (x y : string) : string := if decide (x = "") then y else x.

(** The "Add Input" handler. *)
Definition add_input (add_name : string) (sess : Session) : Session :=
  let circ := circuit sess in
  let name :=
    str_or (strip add_name)
      ("in" +:+ pretty (Z.of_nat (size (inputs circ)) + 1)) in
  mkSession
    (mkCircuit (<[name := (0, 0)]> (inputs circ)) (gates circ) (outputs circ))
    (wave_history sess).

(** The "Auto-generate inputs" handler: [for i in range(1, n_inp+1)]. *)
Definition auto_generate_inputs (n_inp : Z) (sess : Session) : Session :=
  let circ := circuit sess in
  mkSession
    (mkCircuit
       (fold_left (fun ins i => <["I" +:+ pretty i := (0, 0)]> ins)
          (seqZ 1 n_inp) (inputs circ))
       (gates circ) (outputs circ))
    (wave_history sess).

(** The value a choice of the "Set input values" boxes stands for. *)
Definition chosen_signal (choice : string) : Signal :=
  if String.eqb choice "11(quads)" then (1, 1)
  else encode_dual (if negb (String.eqb choice "11(quads)") then choice else "NULL").

(** The "Set input values" loop: every input is given the value chosen in
    its box, [choice name] being the choice for the input [name]. *)
Definition set_input_values (choice : string → string) (sess : Session) : Session :=
  let circ := circuit sess in
  mkSession
    (mkCircuit (map_imap (fun name _ => Some (chosen_signal (choice name)))
                  (inputs circ))
       (gates circ) (outputs circ))
    (wave_history sess).

(** The "Add Output" handler. *)
Definition add_output (out_name src : string) (sess : Session) : Session :=
  let circ := circuit sess in
  let name :=
    str_or (strip out_name)
      ("OUT" +:+ pretty (Z.of_nat (size (outputs circ)) + 1)) in
  mkSession
    (mkCircuit (inputs circ) (gates circ) (<[name := strip src]> (outputs circ)))
    (wave_history sess).

End InputsEditor.

(** ** The pipeline designer *)

(** The output of one stage on the wave that reaches it. *)
Definition pipeline_stage (g : string) (wave : Signal) : Signal :=
  if String.eqb g "TH12" then th12 wave wave
  else if String.eqb g "TH22" then th22 wave wave
  else if String.eqb g "TH23" then th23 wave wave wave
  else thmn [wave] 2.

(** The loop over [enumerate(stages)], from the stage of index [idx]. *)
Fixpoint pipeline_loop (idx : nat) (stages : list (string * Q)) (wave : Signal)
    (timeline : list (string * string)) (null_cycle_count : Z)
    : list (string * string) * Z :=
  match stages with
  | [] => (timeline, null_cycle_count)
  | (g, lat) :: rest =>
      let out := pipeline_stage g wave in
      let entry := ("Stage" +:+ pretty (Z.of_nat idx + 1) +:+ "_" +:+ g,
                    signal_repr out) in
      pipeline_loop (S idx) rest out (timeline ++ [entry])%list
        (if is_null out then null_cycle_count + 1 else null_cycle_count)
  end.

(** The "Simulate Pipeline" handler: the timeline and the NULL-cycle count. *)
Definition simulate_pipeline (stages : list (string * Q)) (choice : string)
    : list (string * string) * Z :=
  pipeline_loop 0 stages (encode_dual choice) [] 0.

(** ** The FSM designer *)

(** One object of the transitions array, its four fields read as strings;
    [None] is a missing key. *)
Record Transition : Type := mkTransition {
  tr_from : option string;
  tr_in : option string;
  tr_to : option string;
  tr_out : option string
}.

(** [st.session_state.fsm]; a state's ["output"] is a signal or [None]. *)
Record FSM : Type := mkFSM {
  fsm_type : string;
  fsm_states : gmap string (option Signal);
  fsm_start : string;
  fsm_transitions : list Transition
}.

(** The inner [for tr in transitions] loop with its [break]. *)
Fixpoint find_transition (trs : list Transition) (state inp : string)
    : option Transition :=
  match trs with
  | [] => None
  | tr :: rest =>
      if decide (tr_from tr = Some state ∧ tr_in tr = Some inp) then Some tr
      else find_transition rest state inp
  end.

(** [signal_repr(states.get(state, {}).get("output", (0,0)))]; [str(None)]
    is what [signal_repr] makes of an output that is [None]. *)
Definition moore_output (fsm : FSM) (state : string) : string :=
  match fsm_states fsm !! state with
  | Some (Some sig) => signal_repr sig
  | Some None => "None"
  | None => signal_repr (0, 0)
  end.

(** One round of the simulation loop: the next state and the logged output. *)
Definition fsm_step (fsm : FSM) (state inp : string) : string * string :=
  match find_transition (fsm_transitions fsm) state inp with
  | Some matched =>
      let out :=
        if String.eqb (fsm_type fsm) "Mealy" then default "NULL" (tr_out matched)
        else moore_output fsm state in
      (default state (tr_to matched), out)
  | None => (state, "NULL")
  end.

Fixpoint fsm_loop (fsm : FSM) (seq : list string) (state : string)
    (out_log : list string) : string * list string :=
  match seq with
  | [] => (state, out_log)
  | inp :: rest =>
      let '(state', out) := fsm_step fsm state inp in
      fsm_loop fsm rest state' (out_log ++ [out])%list
  end.

(** [seq[:steps]]. *)
Definition slice_to {A : Type} (steps : Z) (seq : list A) : list A :=
  if 0 <=? steps then take (Z.to_nat steps) seq
  else take (length seq - Z.to_nat (- steps)) seq.

(** The "Run FSM Simulation" handler: the last state and the output log. *)
Definition run_fsm (strip : string → string) (fsm : FSM) (steps : Z)
    (inps : string) : string * list string :=
  let seq := input_list_of strip inps in
  fsm_loop fsm (slice_to steps seq) (fsm_start fsm) [].

(** ** Circuits used in the statements *)

(** What the editor holds after "Add Gate" is pressed once on an empty
    workspace with the form as it comes up: kind [TH22], id [G1], no input
    names. *)
Definition short_gate_circuit : Circuit :=
  mkCircuit ∅ [("G1", mkGate "G1" "TH22" [] 1%Q)] ∅.

(** A ring of three buffers in which each gate reads the one after it, with
    an input stored under the name of the second gate. *)
Definition ring_circuit : Circuit :=
  mkCircuit
    (<["G2" := (1, 0)]> ∅)
    [("G1", mkGate "G1" "TH12" ["G2"; "G2"] 1%Q);
     ("G2", mkGate "G2" "TH12" ["G3"; "G3"] 1%Q);
     ("G3", mkGate "G3" "TH12" ["G1"; "G1"] 1%Q)]
    ∅.

(** Two buffers in a row, the second reading the first. *)
Definition chain_circuit : Circuit :=
  mkCircuit
    (<["A" := (1, 0)]> ∅)
    [("G1", mkGate "G1" "TH12" ["A"; "A"] 1%Q);
     ("G2", mkGate "G2" "TH12" ["G1"; "G1"] 1%Q)]
    ∅.

(** ** The builtins on ASCII text

    [int] and [str.strip] as they act on ASCII strings; the engine and the
    editor above take the builtins as parameters, and these instances serve
    to run them. *)

Definition py_is_space (c : ascii) : bool :=
  let n := nat_of_ascii c in
  ((9 <=? n) && (n <=? 13) || (28 <=? n) && (n <=? 32))%nat.

Fixpoint lstrip_ascii (s : string) : string :=
  match s with
  | String c rest => if py_is_space c then lstrip_ascii rest else s
  | EmptyString => EmptyString
  end.

Definition strip_ascii (s : string) : string :=
  String.rev (lstrip_ascii (String.rev (lstrip_ascii s))).

(** The white space that [int] skips at both ends of an ASCII string: tab
    to carriage return and the space ([str.strip] also drops the four
    separators 28 to 31, [int] does not). *)
Definition int_is_space (c : ascii) : bool :=
  let n := nat_of_ascii c in
  ((9 <=? n) && (n <=? 13) || (n =? 32))%nat.

Fixpoint lstrip_int (s : string) : string :=
  match s with
  | String c rest => if int_is_space c then lstrip_int rest else s
  | EmptyString => EmptyString
  end.

Definition strip_int (s : string) : string :=
  String.rev (lstrip_int (String.rev (lstrip_int s))).

(** Decimal digits with single underscores allowed between digits. *)
Fixpoint digits_ascii (s : string) (acc : Z) (after_digit : bool) : option Z :=
  match s with
  | EmptyString => if after_digit then Some acc else None
  | String c rest =>
      match Ascii.is_nat c with
      | Some d => digits_ascii rest (10 * acc + Z.of_nat d) true
      | None =>
          if after_digit && Ascii.eqb c "_" then digits_ascii rest acc false
          else None
      end
  end.

(** The number of digits of a string. *)
Fixpoint count_digits (s : string) : nat :=
  match s with
  | EmptyString => 0
  | String c rest =>
      match Ascii.is_nat c with
      | Some _ => S (count_digits rest)
      | None => count_digits rest
      end
  end.

(** [int] refuses a decimal string of more than 4300 digits (the default
    of [sys.int_max_str_digits]). *)
Definition digits_limited (body : string) : option Z :=
  if (4300 <? count_digits body)%nat then None else digits_ascii body 0 false.

Definition int_ascii (s : string) : option Z :=
  match strip_int s with
  | String "-" rest => Z.opp <$> digits_limited rest
  | String "+" rest => digits_limited rest
  | body => digits_limited body
  end.

(** ** Notions used in the statements *)

(** The number of elements of [inputs] that satisfy [is_data]. *)
Definition data_inputs (inputs : list Signal) : Z :=
  Z.of_nat (length (filter (fun x => is_data x = true) inputs)).

(** The fixed kinds unpack two (three) gathered signals into their
    function: the gate needs that many input references. *)
Definition arity_ok (g : Gate) : bool :=
  if startswith_THm (kind g) then true
  else if String.eqb (kind g) "TH22" then (2 <=? length (gate_inputs g))%nat
  else if String.eqb (kind g) "TH12" then (2 <=? length (gate_inputs g))%nat
  else if String.eqb (kind g) "TH23" then (3 <=? length (gate_inputs g))%nat
  else true.

(** The number of parameters of the function that a fixed kind unpacks its
    signals into; the other kinds take the whole list. *)
Definition fixed_arity (k : string) : option nat :=
  if String.eqb k "TH22" then Some 2%nat
  else if String.eqb k "TH12" then Some 2%nat
  else if String.eqb k "TH23" then Some 3%nat
  else None.

(** The value of [t] after [k] additions of 0.5. *)
Definition half_steps (k : nat) : Q := (inject_Z (Z.of_nat k) * (1 # 2))%Q.

(** The input references that the evaluation of a gate reads: all of them
    for a generic or unknown kind, the first two (three) for a fixed one. *)
Definition eval_refs (g : Gate) : list string :=
  if startswith_THm (kind g) then gate_inputs g
  else if String.eqb (kind g) "TH22" then take 2 (gate_inputs g)
  else if String.eqb (kind g) "TH12" then take 2 (gate_inputs g)
  else if String.eqb (kind g) "TH23" then take 3 (gate_inputs g)
  else gate_inputs g.

(** The threshold that the evaluation of a gate hands to [thmn]. *)
Definition eval_threshold (int_of_str : string → option Z) (g : Gate) : Z :=
  if startswith_THm (kind g) then
    match int_of_str (replace_THm (kind g)) with
    | Some m => m
    | None => Z.max 1 (Z.of_nat (length (gate_inputs g)))
    end
  else if String.eqb (kind g) "TH22" then 2
  else if String.eqb (kind g) "TH12" then 1
  else if String.eqb (kind g) "TH23" then 2
  else 1.

(** Whether a name carries DATA in a state, a missing name being NULL. *)
Definition carries_data (state : gmap string Signal) (x : string) : bool :=
  is_data (default (0, 0) (state !! x)).

(** The number of gate ids that do not hold [(1,0)] in a state. *)
Definition not_firing (gs : list (string * Gate)) (state : gmap string Signal) : nat :=
  length (filter (fun gid => state !! gid ≠ Some (1, 0)) gs.*1).

(** What the loop appends, read pass by pass: every snapshot is taken with
    [changed] set and holds the state the pass starts from; the pass either
    raises, which ends the history, or hands its state and its flag to the
    rest; without a snapshot the loop is left with the state and the flag
    unchanged. *)
Fixpoint trace_ok (int_of_str : string → option Z) (gs : list (string * Gate))
    (state : gmap string Signal) (changed : bool)
    (new : list Snapshot) (out : res LoopExit) : Prop :=
  match new with
  | [] => ∃ t, out = Ok (mkLoopExit state t changed)
  | snap :: rest =>
      changed = true ∧ signals snap = state
      ∧ match gate_pass int_of_str gs state false with
        | Raise e => rest = [] ∧ out = Raise e
        | Ok (state', changed') => trace_ok int_of_str gs state' changed' rest out
        end
  end.

(** A state in which every gate id that is present holds [(1,0)] or
    [(0,0)], and holds [(1,0)] only if its gate evaluates to [(1,0)] there. *)
Definition grown (int_of_str : string → option Z) (gs : list (string * Gate))
    (state : gmap string Signal) : Prop :=
  ∀ gid g, (gid, g) ∈ gs →
    (∀ v, state !! gid = Some v → v = (1, 0) ∨ v = (0, 0))
    ∧ (state !! gid = Some (1, 0) →
       evaluate_gate int_of_str g state = Ok (1, 0)).

(** Every name that carries DATA in the first state does so in the second. *)
Definition data_le (state state' : gmap string Signal) : Prop :=
  ∀ x, carries_data state x = true → carries_data state' x = true.

(** The history and the exit of the loop on the example circuit. *)
Definition example_history : list Snapshot :=
  [mkSnapshot (0 # 1000)%Q (inputs example_circuit);
   mkSnapshot (500 # 1000)%Q
     (<["G2" := (1, 0)]> (<["G1" := (1, 0)]> (inputs example_circuit)))].

Definition example_exit : LoopExit :=
  mkLoopExit (<["G2" := (1, 0)]> (<["G1" := (1, 0)]> (inputs example_circuit)))
    (0 + (1 # 2) + (1 # 2))%Q false.

(** Whether a character occurs in a string. *)
Fixpoint occurs (c : ascii) (s : string) : bool :=
  match s with
  | EmptyString => false
  | String a rest => Ascii.eqb a c || occurs c rest
  end.

(** The four signals of the dual-rail code with its quad extension. *)
Definition canonical (sig : Signal) : Prop :=
  sig = (0, 0) ∨ sig = (1, 0) ∨ sig = (0, 1) ∨ sig = (1, 1).

(** The stages through which a DATA wave passes. *)
Definition passing_stage (g : string) : bool :=
  String.eqb g "TH12" || String.eqb g "TH22" || String.eqb g "TH23".

(** The number of stages at the front of the pipeline that all pass. *)
Fixpoint passing_prefix (stages : list (string * Q)) : nat :=
  match stages with
  | [] => 0
  | (g, _) :: rest => if passing_stage g then S (passing_prefix rest) else 0
  end.

(** The sample machine of the transitions box, as a Mealy machine. *)
Definition sample_fsm : FSM :=
  mkFSM "Mealy"
    (<["S1" := None]> (<["S0" := None]> ∅))
    "S0"
    [mkTransition (Some "S0") (Some "1") (Some "S1") (Some "DATA1");
     mkTransition (Some "S1") (Some "1") (Some "S0") (Some "DATA0")].

(** Whether [THm] occurs in a string. *)
Fixpoint contains_THm (s : string) : bool :=
  match s with
  | String "T" (String "H" (String "m" _)) => true
  | String _ rest => contains_THm rest
  | EmptyString => false
  end.

(** * Properties *)

(** ** Signals and the threshold evaluator *)

Lemma is_null_spec (sig : Signal) : is_null sig = true ↔ sig = (0, 0).
Proof.
  destruct sig as [hi lo]; unfold is_null; simpl.
  rewrite andb_true_iff, !Z.eqb_eq. split.
  - intros [-> ->]; reflexivity.
  - intros [= -> ->]; auto.
Qed.

Lemma is_data_spec (sig : Signal) : is_data sig = true ↔ sig ≠ (0, 0).
Proof.
  unfold is_data. rewrite negb_true_iff, <- not_true_iff_false.
  by rewrite is_null_spec.
Qed.

Lemma count_data_from (inputs : list Signal) (acc : Z) :
  fold_left (fun acc x => if is_data x then acc + 1 else acc) inputs acc
  = acc + data_inputs inputs.
Proof.
  unfold data_inputs. revert acc.
  induction inputs as [|x inputs IH]; intros acc; simpl.
  - lia.
  - rewrite IH. destruct (is_data x) eqn:Hx.
    + rewrite filter_cons_True by done. simpl length. lia.
    + rewrite filter_cons_False by congruence. lia.
Qed.

Lemma count_data_filter (inputs : list Signal) :
  count_data inputs = data_inputs inputs.
Proof. unfold count_data. rewrite count_data_from. lia. Qed.

(** C2.  [thmn inputs m] is [(1,0)] when at least [m] elements of [inputs]
    satisfy [is_data] and [(0,0)] otherwise; on the empty list it is
    [(0,0)] for every [m >= 1]. *)
Theorem thmn_threshold (inputs : list Signal) (m : Z) :
  (m ≤ data_inputs inputs → thmn inputs m = (1, 0))
  ∧ (data_inputs inputs < m → thmn inputs m = (0, 0))
  ∧ (1 ≤ m → thmn [] m = (0, 0)).
Proof.
  unfold thmn. rewrite count_data_filter. repeat split.
  - intros Hm. by rewrite (proj2 (Z.leb_le _ _) Hm).
  - intros Hm. by rewrite (proj2 (Z.leb_gt _ _) Hm).
  - intros Hm. cbn. by rewrite (proj2 (Z.leb_gt _ _)) by lia.
Qed.

Lemma thmn_threshold_witness :
  (2 ≤ data_inputs [(1, 0); (0, 1); (0, 0)]
   ∧ thmn [(1, 0); (0, 1); (0, 0)] 2 = (1, 0))
  ∧ (data_inputs [(1, 0); (0, 1); (0, 0)] < 3
     ∧ thmn [(1, 0); (0, 1); (0, 0)] 3 = (0, 0))
  ∧ (1 ≤ 1 ∧ thmn [] 1 = (0, 0)).
Proof.
  pose proof (thmn_threshold [(1, 0); (0, 1); (0, 0)] 2) as (H2 & _ & _).
  pose proof (thmn_threshold [(1, 0); (0, 1); (0, 0)] 3) as (_ & H3 & _).
  pose proof (thmn_threshold [] 1) as (_ & _ & H1).
  assert (Ha : 2 ≤ data_inputs [(1, 0); (0, 1); (0, 0)])
    by (vm_compute; discriminate).
  assert (Hb : data_inputs [(1, 0); (0, 1); (0, 0)] < 3)
    by (vm_compute; reflexivity).
  assert (Hc : 1 ≤ 1) by lia.
  exact (conj (conj Ha (H2 Ha)) (conj (conj Hb (H3 Hb)) (conj Hc (H1 Hc)))).
Defined.

(** ** Gathering the inputs of a gate *)

Lemma gather_length (srcs : list string) (state : gmap string Signal) :
  length (gather srcs state) = length srcs.
Proof.
  induction srcs as [|src srcs IH]; simpl; [done|].
  destruct (state !! src); simpl; by rewrite IH.
Qed.

Lemma gather_lookup (srcs : list string) (state : gmap string Signal)
    (i : nat) (src : string) :
  srcs !! i = Some src →
  gather srcs state !! i = Some (default (0, 0) (state !! src)).
Proof.
  revert i. induction srcs as [|s0 srcs IH]; intros [|i] Hi; simplify_eq/=.
  - by destruct (state !! src).
  - destruct (state !! s0); simpl; by apply IH.
Qed.

(** A missing key and a key bound to [(0,0)] gather alike. *)
Lemma gather_insert_null (srcs : list string) (state : gmap string Signal)
    (src : string) :
  state !! src = None →
  gather srcs (<[src := (0, 0)]> state) = gather srcs state.
Proof.
  intros Hnone. induction srcs as [|s0 srcs IH]; simpl; [done|].
  rewrite IH. destruct (decide (src = s0)) as [->|Hne].
  - by rewrite lookup_insert_eq, Hnone.
  - by rewrite lookup_insert_ne.
Qed.

Lemma gather_app (l1 l2 : list string) (state : gmap string Signal) :
  gather (l1 ++ l2) state = (gather l1 state ++ gather l2 state)%list.
Proof.
  induction l1 as [|s0 l1 IH]; simpl; [done|].
  destruct (state !! s0); simpl; by rewrite IH.
Qed.

Lemma gather_take (n : nat) (srcs : list string) (state : gmap string Signal) :
  take n (gather srcs state) = gather (take n srcs) state.
Proof.
  revert n. induction srcs as [|s0 srcs IH]; intros [|n]; simpl; try done.
  destruct (state !! s0); simpl; by rewrite IH.
Qed.

Section EngineProperties.

Variable int_of_str : string → option Z.

Lemma evaluate_gate_insert_null (g : Gate) (state : gmap string Signal)
    (src : string) :
  state !! src = None →
  evaluate_gate int_of_str g (<[src := (0, 0)]> state)
  = evaluate_gate int_of_str g state.
Proof.
  intros Hnone. unfold evaluate_gate. by rewrite gather_insert_null.
Qed.

Lemma final_outputs_lookup (outs : gmap string string)
    (state : gmap string Signal) (out : string) :
  final_outputs_of outs state !! out
  = (fun src => default (0, 0) (state !! src)) <$> outs !! out.
Proof. unfold final_outputs_of. by rewrite lookup_fmap. Qed.

(** C4.  A source reference that is not a key of the state contributes
    [(0,0)] to the gathered inputs, the gate then evaluates exactly as if
    the state held [(0,0)] under that name, and an output whose source is
    not a key of the final state is extracted as [(0,0)]. *)
Theorem unresolved_reference_is_null (g : Gate) (outs : gmap string string)
    (state : gmap string Signal) (src : string) :
  state !! src = None →
  length (gather (gate_inputs g) state) = length (gate_inputs g)
  ∧ (∀ i, gate_inputs g !! i = Some src →
          gather (gate_inputs g) state !! i = Some (0, 0))
  ∧ evaluate_gate int_of_str g state
    = evaluate_gate int_of_str g (<[src := (0, 0)]> state)
  ∧ (∀ out, outs !! out = Some src →
            final_outputs_of outs state !! out = Some (0, 0)).
Proof.
  intros Hnone. split; [apply gather_length|]. split; [|split].
  - intros i Hi. rewrite (gather_lookup _ _ _ _ Hi). by rewrite Hnone.
  - by rewrite evaluate_gate_insert_null.
  - intros out Hout. rewrite final_outputs_lookup, Hout. simpl.
    by rewrite Hnone.
Qed.

(** The branch of [evaluate_gate] taken when [int] raises: the threshold is
    [max(1, len(sigs))]. *)
Lemma malformed_generic_kind_fallback (g : Gate)
    (state : gmap string Signal) :
  startswith_THm (kind g) = true →
  int_of_str (replace_THm (kind g)) = None →
  evaluate_gate int_of_str g state
  = Ok (thmn (gather (gate_inputs g) state)
             (Z.max 1 (Z.of_nat (length (gather (gate_inputs g) state)))))
  ∧ length (gather (gate_inputs g) state) = length (gate_inputs g).
Proof.
  intros Hpre Hint. split; [|apply gather_length].
  unfold evaluate_gate. by rewrite Hpre, Hint.
Qed.

(** [replace] takes out every [THm], not only the leading one: the kind
    [THm1THm2] is read as the threshold 12. *)
Lemma generic_kind_inner_THm (state : gmap string Signal) :
  replace_THm "THm1THm2" = "12"
  ∧ evaluate_gate int_ascii (mkGate "G" "THm1THm2" ["A"; "B"] 1%Q) state
    = Ok (thmn (gather ["A"; "B"] state) 12).
Proof. split; reflexivity. Qed.

(** The fixed kinds are not generic ones. *)
Lemma fixed_kind_not_generic (k : string) :
  k = "TH22" ∨ k = "TH12" ∨ k = "TH23" → startswith_THm k = false.
Proof. by intros [->|[->| ->]]. Qed.

(** C10.  A [TH22] or [TH12] gate with more than two input references, and
    a [TH23] gate with more than three, is evaluated on the first two
    (three) gathered signals only: the result is that of the gate cut down
    to these references, whatever the remaining ones are. *)
Theorem fixed_kind_truncation (gid k : string) (d : Q)
    (a b c : string) (rest : list string) (state : gmap string Signal) :
  let sig := fun src => default (0, 0) (state !! src) in
  (k = "TH22" →
     evaluate_gate int_of_str (mkGate gid k (a :: b :: c :: rest) d) state
     = Ok (thmn [sig a; sig b] 2))
  ∧ (k = "TH12" →
     evaluate_gate int_of_str (mkGate gid k (a :: b :: c :: rest) d) state
     = Ok (thmn [sig a; sig b] 1))
  ∧ (k = "TH23" →
     evaluate_gate int_of_str (mkGate gid k (a :: b :: c :: rest) d) state
     = Ok (thmn [sig a; sig b; sig c] 2)).
Proof.
  intros sig. subst sig.
  repeat split; intros ->; unfold evaluate_gate; simpl;
    destruct (state !! a), (state !! b), (state !! c); reflexivity.
Qed.

(** *** When [evaluate_gate] raises *)

Lemma call2_take (f : Signal → Signal → Signal) (sigs : list Signal) :
  (2 ≤ length sigs)%nat → ∃ v, call2 f (take 2 sigs) = Ok v.
Proof.
  destruct sigs as [|x [|y sigs]]; simpl; intros Hlen; try lia.
  eauto.
Qed.

Lemma call2_take_short (f : Signal → Signal → Signal) (sigs : list Signal) :
  (length sigs < 2)%nat → call2 f (take 2 sigs) = Raise TypeError.
Proof. destruct sigs as [|x [|y sigs]]; simpl; intros Hlen; done || lia. Qed.

Lemma call3_take (f : Signal → Signal → Signal → Signal) (sigs : list Signal) :
  (3 ≤ length sigs)%nat → ∃ v, call3 f (take 3 sigs) = Ok v.
Proof.
  destruct sigs as [|x [|y [|z sigs]]]; simpl; intros Hlen; try lia.
  eauto.
Qed.

Lemma call3_take_short (f : Signal → Signal → Signal → Signal)
    (sigs : list Signal) :
  (length sigs < 3)%nat → call3 f (take 3 sigs) = Raise TypeError.
Proof.
  destruct sigs as [|x [|y [|z sigs]]]; simpl; intros Hlen; done || lia.
Qed.

Lemma evaluate_gate_ok (g : Gate) (state : gmap string Signal) :
  arity_ok g = true → ∃ v, evaluate_gate int_of_str g state = Ok v.
Proof.
  unfold arity_ok, evaluate_gate.
  destruct (startswith_THm (kind g)); [eauto|].
  pose proof (gather_length (gate_inputs g) state) as Hlen.
  repeat case_match; try (by eauto); intros Hok;
    (apply call2_take || apply call3_take); rewrite Hlen;
    by (apply Nat.leb_le).
Qed.

Lemma evaluate_gate_raise (g : Gate) (state : gmap string Signal) :
  arity_ok g = false → evaluate_gate int_of_str g state = Raise TypeError.
Proof.
  unfold arity_ok, evaluate_gate.
  destruct (startswith_THm (kind g)); [done|].
  pose proof (gather_length (gate_inputs g) state) as Hlen.
  repeat case_match; try done; intros Hok;
    (apply call2_take_short || apply call3_take_short); rewrite Hlen;
    by (apply Nat.leb_gt).
Qed.

(** *** One pass over the gates *)

Lemma gate_step_ok (gid : string) (g : Gate) (state : gmap string Signal)
    (changed : bool) (v : Signal) :
  evaluate_gate int_of_str g state = Ok v →
  ∃ state' changed',
    gate_step int_of_str gid g state changed = Ok (state', changed')
    ∧ state' = <[gid := v]> state
    ∧ state' !! gid = Some v.
Proof.
  intros Hv. unfold gate_step. rewrite Hv. simpl.
  destruct (decide (state !! gid = Some v)) as [Heq|Hne].
  - exists state, changed. by rewrite insert_id.
  - exists (<[gid := v]> state), true. by rewrite lookup_insert_eq.
Qed.

Lemma gate_step_other (gid other : string) (g : Gate)
    (state state' : gmap string Signal) (changed changed' : bool) :
  other ≠ gid →
  gate_step int_of_str gid g state changed = Ok (state', changed') →
  state' !! other = state !! other.
Proof.
  intros Hne. unfold gate_step.
  destruct (evaluate_gate int_of_str g state) as [v|e]; simpl; [|done].
  destruct (decide (state !! gid = Some v)); intros [= <- <-]; [done|].
  by rewrite lookup_insert_ne.
Qed.

Lemma gate_pass_app (l1 l2 : list (string * Gate))
    (state : gmap string Signal) (changed : bool) :
  gate_pass int_of_str (l1 ++ l2) state changed
  = '(state', changed') ← gate_pass int_of_str l1 state changed;
    gate_pass int_of_str l2 state' changed'.
Proof.
  revert state changed.
  induction l1 as [|[gid g] l1 IH]; intros state changed; simpl; [done|].
  destruct (gate_step int_of_str gid g state changed) as [[s1 c1]|e];
    simpl; [apply IH|done].
Qed.

(** A pass leaves alone the names that are no gate of it. *)
Lemma gate_pass_other (gs : list (string * Gate)) (other : string)
    (state state' : gmap string Signal) (changed changed' : bool) :
  other ∉ gs.*1 →
  gate_pass int_of_str gs state changed = Ok (state', changed') →
  state' !! other = state !! other.
Proof.
  revert state changed.
  induction gs as [|[gid g] gs IH]; intros state changed Hnot; simpl.
  - by intros [= <- <-].
  - apply not_elem_of_cons in Hnot as [Hne Hnot].
    destruct (gate_step int_of_str gid g state changed) as [[s1 c1]|e] eqn:Hs;
      simpl; [|done].
    intros Hrest. rewrite (IH _ _ Hnot Hrest).
    by eapply gate_step_other.
Qed.

Lemma gate_pass_ok (gs : list (string * Gate))
    (state : gmap string Signal) (changed : bool) :
  forallb (fun p => arity_ok p.2) gs = true →
  ∃ state' changed', gate_pass int_of_str gs state changed = Ok (state', changed').
Proof.
  revert state changed.
  induction gs as [|[gid g] gs IH]; intros state changed; simpl; [eauto|].
  intros [Hg Hgs]%andb_true_iff.
  destruct (evaluate_gate_ok g state Hg) as [v Hv].
  destruct (gate_step_ok gid g state changed v Hv) as (s1 & c1 & -> & _).
  simpl. by apply IH.
Qed.

Lemma gate_pass_raise (gs : list (string * Gate))
    (state : gmap string Signal) (changed : bool) :
  forallb (fun p => arity_ok p.2) gs = false →
  gate_pass int_of_str gs state changed = Raise TypeError.
Proof.
  revert state changed.
  induction gs as [|[gid g] gs IH]; intros state changed; simpl; [done|].
  intros Hbad. destruct (arity_ok g) eqn:Hg; simpl in Hbad.
  - destruct (evaluate_gate_ok g state Hg) as [v Hv].
    destruct (gate_step_ok gid g state changed v Hv) as (s1 & c1 & -> & _).
    simpl. by apply IH.
  - unfold gate_step. by rewrite (evaluate_gate_raise g state Hg).
Qed.

(** C7.  In a pass over [pre ++ (g1,G1) :: mid ++ (g2,G2) :: post], where
    no gate of [mid] is stored under [g1], the state handed to the
    evaluation of [G2] holds under [g1] the value [v1] that [G1] was given
    earlier in this same pass, every input reference of [G2] to [g1]
    gathers [v1], and the pass goes on from that evaluation. *)
Theorem gate_pass_in_place (pre mid post : list (string * Gate))
    (g1 g2 : string) (G1 G2 : Gate)
    (s s1 s2 : gmap string Signal) (c c1 c2 : bool) (v1 : Signal) :
  g1 ∉ mid.*1 →
  gate_pass int_of_str pre s c = Ok (s1, c1) →
  evaluate_gate int_of_str G1 s1 = Ok v1 →
  gate_pass int_of_str (pre ++ (g1, G1) :: mid) s c = Ok (s2, c2) →
  s2 !! g1 = Some v1
  ∧ (∀ i, gate_inputs G2 !! i = Some g1 →
          gather (gate_inputs G2) s2 !! i = Some v1)
  ∧ gate_pass int_of_str (pre ++ (g1, G1) :: mid ++ (g2, G2) :: post) s c
    = '(s3, c3) ← gate_step int_of_str g2 G2 s2 c2;
      gate_pass int_of_str post s3 c3.
Proof.
  intros Hmid Hpre Hv1 Hupto.
  assert (Hg1 : s2 !! g1 = Some v1).
  { rewrite gate_pass_app, Hpre in Hupto. simpl in Hupto.
    destruct (gate_step_ok g1 G1 s1 c1 v1 Hv1) as (s1' & c1' & Hstep & _ & Hl).
    rewrite Hstep in Hupto. simpl in Hupto.
    by rewrite (gate_pass_other _ _ _ _ _ _ Hmid Hupto). }
  split; [done|]. split.
  - intros i Hi. by rewrite (gather_lookup _ _ _ _ Hi), Hg1.
  - replace (pre ++ (g1, G1) :: mid ++ (g2, G2) :: post)%list
      with ((pre ++ (g1, G1) :: mid) ++ (g2, G2) :: post)%list
      by (by rewrite <- app_assoc).
    by rewrite gate_pass_app, Hupto.
Qed.

(** *** The time variable *)

Lemma half_steps_succ (k : nat) (t : Q) :
  (t == half_steps k → t + (1 # 2) == half_steps (S k))%Q.
Proof.
  intros Ht. unfold half_steps in *.
  rewrite Nat2Z.inj_succ. unfold Z.succ. rewrite inject_Z_plus, Ht. ring.
Qed.

Lemma half_steps_lt (k : nat) (t : Q) :
  (t == half_steps k)%Q → (t < 20)%Q ↔ (k < 40)%nat.
Proof.
  intros Ht. rewrite Ht. unfold half_steps, Qlt. simpl. lia.
Qed.

Lemma loop_cond_spec (changed : bool) (t : Q) (k : nat) :
  (t == half_steps k)%Q →
  loop_cond changed t = true ↔ changed = true ∧ (k < 40)%nat.
Proof.
  intros Ht. unfold loop_cond. rewrite andb_true_iff.
  rewrite <- (half_steps_lt k t Ht).
  destruct (Qlt_le_dec t 20) as [Hlt|Hge]; split; intros [? ?]; split; auto.
  - discriminate.
  - exfalso. by apply (Qlt_not_le t 20).
Qed.

(** Rounding to three decimals leaves a multiple of 0.5 as it is. *)
Lemma round3_half_steps (k : nat) (t : Q) :
  (t == half_steps k → round3 t == half_steps k)%Q.
Proof.
  intros Ht. unfold round3.
  assert (Hx : (t * 1000 == inject_Z (500 * Z.of_nat k))%Q).
  { rewrite Ht. unfold half_steps, Qeq. simpl. lia. }
  assert (Hfl : Qfloor (t * 1000) = 500 * Z.of_nat k).
  { rewrite Hx. apply Qfloor_Z. }
  rewrite Hfl.
  assert (Hlt : ((t * 1000 - inject_Z (500 * Z.of_nat k))%Q ?= 1 # 2)%Q = Lt).
  { apply (proj1 (Qlt_alt _ _)).
    assert (H0 : (t * 1000 - inject_Z (500 * Z.of_nat k) == 0)%Q)
      by (rewrite Hx; ring).
    rewrite H0. reflexivity. }
  rewrite Hlt. unfold half_steps, Qeq. simpl. lia.
Qed.

(** *** The loop *)

Lemma sim_loop_exit (fuel : nat) (gs : list (string * Gate))
    (state : gmap string Signal) (history : list Snapshot) (t : Q)
    (changed : bool) :
  loop_cond changed t = false →
  sim_loop int_of_str fuel gs state history t changed
  = Some (history, Ok (mkLoopExit state t changed)).
Proof. intros Hc. destruct fuel; simpl; by rewrite Hc. Qed.

Lemma sim_loop_step (fuel : nat) (gs : list (string * Gate))
    (state : gmap string Signal) (history : list Snapshot) (t : Q)
    (changed : bool) :
  loop_cond changed t = true →
  sim_loop int_of_str (S fuel) gs state history t changed
  = match gate_pass int_of_str gs state false with
    | Raise e => Some ((history ++ [mkSnapshot (round3 t) state])%list, Raise e)
    | Ok (state', changed') =>
        sim_loop int_of_str fuel gs state'
          (history ++ [mkSnapshot (round3 t) state])%list (t + (1 # 2))%Q changed'
    end.
Proof. intros Hc. simpl. by rewrite Hc. Qed.

(** With [t] at [k] half units and enough fuel for the passes that are
    left before 20, the loop ends: it appends at most [40 - k] snapshots,
    the one at index [i] taken at time [(k + i) / 2], and when it is left
    normally either the last pass changed nothing or [t] is at 20. *)
Lemma sim_loop_bounded (gs : list (string * Gate)) (fuel : nat) :
  ∀ (state : gmap string Signal) (history : list Snapshot) (t : Q)
    (changed : bool) (k : nat),
    (t == half_steps k)%Q → (k ≤ 40)%nat → (40 ≤ fuel + k)%nat →
    ∃ new out,
      sim_loop int_of_str fuel gs state history t changed
      = Some ((history ++ new)%list, out)
      ∧ (k + length new ≤ 40)%nat
      ∧ (changed = true → (k < 40)%nat → (1 ≤ length new)%nat)
      ∧ (∀ i snap, new !! i = Some snap →
           (time snap == half_steps (k + i))%Q)
      ∧ (∀ ex, out = Ok ex →
           (exit_t ex == half_steps (k + length new))%Q
           ∧ (exit_changed ex = false ∨ (k + length new = 40)%nat)).
Proof.
  induction fuel as [|fuel IH]; intros state history t changed k Ht Hk Hfuel.
  - assert (k = 40)%nat as -> by lia.
    assert (Hc : loop_cond changed t = false).
    { apply not_true_iff_false. rewrite (loop_cond_spec _ _ _ Ht). lia. }
    exists [], (Ok (mkLoopExit state t changed)).
    rewrite sim_loop_exit, app_nil_r by done. simpl.
    split_and!; try lia; try done.
    intros ex [= <-]. simpl. auto.
  - destruct (loop_cond changed t) eqn:Hc.
    + pose proof (proj1 (loop_cond_spec _ _ _ Ht) Hc) as [_ Hlt].
      rewrite sim_loop_step by done.
      destruct (gate_pass int_of_str gs state false) as [[state' changed']|e].
      * destruct (IH state' (history ++ [mkSnapshot (round3 t) state])%list
                    (t + (1 # 2))%Q changed' (S k))
          as (new & out & Hrun & Hlen & _ & Htimes & Hexit);
          [by apply half_steps_succ|lia|lia|].
        exists (mkSnapshot (round3 t) state :: new), out.
        rewrite Hrun, <- app_assoc. simpl.
        split_and!; try lia; try done.
        -- intros [|i] snap Hi; simplify_eq/=.
           ++ rewrite Nat.add_0_r. by apply round3_half_steps.
           ++ rewrite <- Nat.add_succ_comm. by apply Htimes.
        -- intros ex Hex. rewrite <- Nat.add_succ_comm. by apply Hexit.
      * exists [mkSnapshot (round3 t) state], (Raise e). simpl.
        split_and!; try lia; try done.
        intros [|i] snap Hi; simplify_eq/=.
        rewrite Nat.add_0_r. by apply round3_half_steps.
    + exists [], (Ok (mkLoopExit state t changed)).
      rewrite sim_loop_exit, app_nil_r by done. simpl.
      apply not_true_iff_false in Hc. rewrite (loop_cond_spec _ _ _ Ht) in Hc.
      split_and!; try lia; try done; [tauto|].
      intros ex [= <-]. simpl. rewrite Nat.add_0_r. split; [done|].
      destruct changed; [right; lia|by left].
Qed.

(** When every gate has the input references its kind unpacks, no pass
    raises and the loop is left normally. *)
Lemma sim_loop_ok (gs : list (string * Gate)) (fuel : nat) :
  forallb (fun p => arity_ok p.2) gs = true →
  ∀ (state : gmap string Signal) (history history' : list Snapshot) (t : Q)
    (changed : bool) (out : res LoopExit),
    sim_loop int_of_str fuel gs state history t changed = Some (history', out) →
    ∃ ex, out = Ok ex.
Proof.
  intros Hgs. induction fuel as [|fuel IH];
    intros state history history' t changed out.
  - simpl. destruct (loop_cond changed t); [done|]. intros [= _ <-]. eauto.
  - simpl. destruct (loop_cond changed t); [|intros [= _ <-]; eauto].
    destruct (gate_pass_ok gs state false Hgs) as (s' & c' & ->).
    apply IH.
Qed.

(** When some gate lacks them, the first pass raises [TypeError]. *)
Lemma sim_loop_raise (gs : list (string * Gate)) (fuel : nat)
    (state : gmap string Signal) (history : list Snapshot) (t : Q) :
  forallb (fun p => arity_ok p.2) gs = false →
  (t < 20)%Q →
  sim_loop int_of_str (S fuel) gs state history t true
  = Some ((history ++ [mkSnapshot (round3 t) state])%list, Raise TypeError).
Proof.
  intros Hgs Ht. rewrite sim_loop_step.
  - by rewrite (gate_pass_raise gs state false Hgs).
  - unfold loop_cond. simpl. destruct (Qlt_le_dec t 20) as [|Hge]; [done|].
    exfalso. by apply (Qlt_not_le t 20).
Qed.

End EngineProperties.

(** ** Runs of the simulation *)

Section Runs.

Variable int_of_str : string → option Z.

Lemma run_simulation_unfold (fuel : nat) (sess : Session) :
  run_simulation int_of_str fuel sess
  = '(history, out) ← sim_loop int_of_str fuel (gates (circuit sess))
                         (inputs (circuit sess)) [] 0%Q true;
    Some (mkSession (circuit sess) history,
          ex ← out;
          Ok (mkRunResult history
                (final_outputs_of (outputs (circuit sess)) (exit_state ex)))).
Proof.
  unfold run_simulation.
  destruct (sim_loop int_of_str fuel (gates (circuit sess))
              (inputs (circuit sess)) [] 0%Q true) as [[history [ex|e]]|];
    reflexivity.
Qed.

(** More fuel does not change the outcome of a loop that ended. *)
Lemma sim_loop_fuel_mono (gs : list (string * Gate)) (fuel : nat) :
  ∀ (fuel' : nat) (state : gmap string Signal) (history : list Snapshot)
    (t : Q) (changed : bool) (r : list Snapshot * res LoopExit),
    (fuel ≤ fuel')%nat →
    sim_loop int_of_str fuel gs state history t changed = Some r →
    sim_loop int_of_str fuel' gs state history t changed = Some r.
Proof.
  induction fuel as [|fuel IH]; intros fuel' state history t changed r Hle.
  - simpl. destruct (loop_cond changed t) eqn:Hc; [done|].
    intros <-. by apply sim_loop_exit.
  - destruct fuel' as [|fuel']; [lia|]. simpl.
    destruct (loop_cond changed t); [|done].
    destruct (gate_pass int_of_str gs state false) as [[s' c']|e]; [|done].
    apply IH. lia.
Qed.

Lemma zero_half_steps : (0 == half_steps 0)%Q.
Proof. reflexivity. Qed.

Lemma half_steps_40 : (half_steps 40 == 20)%Q.
Proof. reflexivity. Qed.


(** The outcome of a run is normal exactly when no gate is short of input
    references. *)
Lemma run_simulation_ok_iff (fuel : nat) (sess : Session) :
  (40 ≤ fuel)%nat →
  (∃ sess' rr, run_simulation int_of_str fuel sess = Some (sess', Ok rr))
  ↔ forallb (fun p => arity_ok p.2) (gates (circuit sess)) = true.
Proof.
  intros Hfuel. split.
  - intros (sess' & rr & Hrun).
    destruct (forallb _ (gates (circuit sess))) eqn:Hgs; [done|].
    destruct fuel as [|fuel]; [lia|].
    rewrite run_simulation_unfold in Hrun.
    rewrite (sim_loop_raise int_of_str _ fuel _ [] 0%Q Hgs) in Hrun by done.
    simpl in Hrun. by simplify_eq.
  - intros Hgs.
    destruct (sim_loop_bounded int_of_str (gates (circuit sess)) fuel
                (inputs (circuit sess)) [] 0%Q true 0 zero_half_steps)
      as (new & out & Hrun & _); [lia|lia|].
    destruct (sim_loop_ok int_of_str _ _ Hgs _ _ _ _ _ _ Hrun) as [ex ->].
    rewrite run_simulation_unfold, Hrun. simpl. eauto.
Qed.

(** C5.  The outcome of a run depends on the circuit alone: two runs on
    sessions that hold the same circuit, whatever their earlier wave
    histories and whatever fuel beyond 40 passes, end with the same
    session and the same timeline and final outputs (or the same
    exception); the run leaves the circuit as it was, so running again
    from the session it produced gives the same once more. *)
Theorem run_deterministic (fuel1 fuel2 : nat) (s1 s2 : Session) :
  (40 ≤ fuel1)%nat → (40 ≤ fuel2)%nat →
  circuit s1 = circuit s2 →
  ∃ (sess' : Session) (r : res RunResult),
    run_simulation int_of_str fuel1 s1 = Some (sess', r)
    ∧ run_simulation int_of_str fuel2 s2 = Some (sess', r)
    ∧ circuit sess' = circuit s1
    ∧ run_simulation int_of_str fuel2 sess' = Some (sess', r).
Proof.
  intros H1 H2 Hcirc.
  destruct (sim_loop_bounded int_of_str (gates (circuit s1)) 40
              (inputs (circuit s1)) [] 0%Q true 0 zero_half_steps)
    as (new & out & Hrun & _); [lia|lia|].
  pose proof (sim_loop_fuel_mono _ _ fuel1 _ _ _ _ _ H1 Hrun) as Hrun1.
  pose proof (sim_loop_fuel_mono _ _ fuel2 _ _ _ _ _ H2 Hrun) as Hrun2.
  eexists _, _. split_and!.
  - rewrite run_simulation_unfold, Hrun1. reflexivity.
  - by rewrite run_simulation_unfold, <- Hcirc, Hrun2.
  - reflexivity.
  - by rewrite run_simulation_unfold; simpl; rewrite Hrun2.
Qed.

(** C1.  Running the simulation on the circuit made of one [TH22] gate
    without input references raises [TypeError] in the first pass, after
    the first snapshot was recorded; no timeline and no final outputs are
    returned. *)
Theorem run_raises_on_short_gate (fuel : nat) (history : list Snapshot) :
  run_simulation int_of_str (S fuel) (mkSession short_gate_circuit history)
  = Some (mkSession short_gate_circuit [mkSnapshot (0 # 1000)%Q ∅],
          Raise TypeError).
Proof. reflexivity. Qed.

(** C8.  On the example circuit (A = DATA1, B = DATA0, G1 = TH12 over A
    and B, G2 = TH22 over A and B, OUT mapped to G2) the run ends normally
    with a timeline of two snapshots: the inputs alone at time 0, then the
    inputs with G1 = G2 = (1,0) at time 0.5, which the second pass leaves
    unchanged; the final outputs are OUT = (1,0). *)
Theorem example_scenario (fuel : nat) (sess : Session) :
  let after_pass :=
    <["G2" := (1, 0)]> (<["G1" := (1, 0)]> (inputs example_circuit)) in
  let snap0 := mkSnapshot (0 # 1000)%Q (inputs example_circuit) in
  let snap1 := mkSnapshot (500 # 1000)%Q after_pass in
  run_simulation int_of_str (S (S fuel)) (load_example sess)
  = Some (mkSession example_circuit [snap0; snap1],
          Ok (mkRunResult [snap0; snap1] (<["OUT" := (1, 0)]> ∅)))
  ∧ (time snap0 == 0)%Q ∧ (time snap1 == 1 # 2)%Q
  ∧ after_pass !! "G1" = Some (1, 0)
  ∧ after_pass !! "G2" = Some (1, 0)
  ∧ gate_pass int_of_str (gates example_circuit) (inputs example_circuit) false
    = Ok (after_pass, true)
  ∧ gate_pass int_of_str (gates example_circuit) after_pass false
    = Ok (after_pass, false)
  ∧ (2 ≤ length [snap0; snap1])%nat.
Proof.
  intros after_pass snap0 snap1.
  assert (Hloop :
    sim_loop int_of_str 2 (gates example_circuit) (inputs example_circuit)
      [] 0%Q true
    = Some ([snap0; snap1],
            Ok (mkLoopExit after_pass (0 + (1 # 2) + (1 # 2))%Q false)))
    by (vm_compute; reflexivity).
  apply sim_loop_fuel_mono with (fuel' := S (S fuel)) in Hloop; [|lia].
  assert (Hout : final_outputs_of (outputs example_circuit) after_pass
                 = <["OUT" := (1, 0)]> ∅) by (vm_compute; reflexivity).
  split.
  { rewrite run_simulation_unfold. simpl circuit. rewrite Hloop, <- Hout.
    reflexivity. }
  subst after_pass snap0 snap1.
  split_and!; try (vm_compute; reflexivity).
Qed.

(** The ring of buffers never settles: the run stops at the bound with 40
    snapshots, the last pass having changed the state, and it ends
    normally. *)
Lemma ring_hits_bound (fuel : nat) :
  ∃ (history : list Snapshot) (ex : LoopExit) (rr : RunResult),
    sim_loop int_of_str (40 + fuel) (gates ring_circuit) (inputs ring_circuit)
      [] 0%Q true = Some (history, Ok ex)
    ∧ length history = 40%nat
    ∧ exit_changed ex = true
    ∧ (exit_t ex == 20)%Q
    ∧ run_simulation int_of_str (40 + fuel) (mkSession ring_circuit [])
      = Some (mkSession ring_circuit history, Ok rr).
Proof.
  assert (H40 :
    match sim_loop int_of_str 40 (gates ring_circuit) (inputs ring_circuit)
            [] 0%Q true with
    | Some (history, Ok ex) =>
        length history = 40%nat ∧ exit_changed ex = true
        ∧ (exit_t ex == 20)%Q
    | _ => False
    end) by (vm_compute; auto).
  destruct (sim_loop int_of_str 40 (gates ring_circuit) (inputs ring_circuit)
              [] 0%Q true) as [[history [ex|e]]|] eqn:Hrun;
    [|destruct H40..].
  destruct H40 as (Hlen & Hch & Ht).
  apply sim_loop_fuel_mono with (fuel' := (40 + fuel)%nat) in Hrun; [|lia].
  eexists history, ex, _. split_and!; [exact Hrun|exact Hlen|exact Hch|exact Ht|].
  rewrite run_simulation_unfold. simpl circuit. rewrite Hrun. reflexivity.
Qed.

(** In the chain the second buffer fires in the very pass in which the
    first one does, although the state held nothing under [G1] when the
    pass began. *)
Lemma chain_first_pass :
  inputs chain_circuit !! "G1" = None
  ∧ ∃ state',
      gate_pass int_of_str (gates chain_circuit) (inputs chain_circuit) false
      = Ok (state', true)
      ∧ state' !! "G1" = Some (1, 0)
      ∧ state' !! "G2" = Some (1, 0).
Proof.
  split; [vm_compute; reflexivity|].
  eexists. split; [vm_compute; reflexivity|].
  split; vm_compute; reflexivity.
Qed.

End Runs.

(** ** The editor *)

Lemma dict_get_set_eq {V : Type} (k : string) (v : V) (d : list (string * V)) :
  dict_get k (dict_set k v d) = Some v.
Proof.
  induction d as [|[k' v'] d IH]; simpl.
  - by rewrite String.eqb_refl.
  - destruct (String.eqb k' k) eqn:Hk; simpl; by rewrite Hk.
Qed.

Lemma dict_get_set_ne {V : Type} (k other : string) (v : V)
    (d : list (string * V)) :
  other ≠ k → dict_get other (dict_set k v d) = dict_get other d.
Proof.
  intros Hne. induction d as [|[k' v'] d IH]; simpl.
  - rewrite (proj2 (String.eqb_neq k other)); [done|congruence].
  - destruct (String.eqb k' k) eqn:Hk; simpl; [|by rewrite IH].
    apply String.eqb_eq in Hk as ->.
    rewrite (proj2 (String.eqb_neq k other)); [done|congruence].
Qed.

(** An overwritten key keeps its place and a new key goes last. *)
Lemma dict_set_keys {V : Type} (k : string) (v : V) (d : list (string * V)) :
  (dict_set k v d).*1
  = if decide (k ∈ d.*1) then d.*1 else (d.*1 ++ [k])%list.
Proof.
  induction d as [|[k' v'] d IH]; cbn [dict_set].
  - case_decide as Hin; [by apply elem_of_nil in Hin|done].
  - destruct (String.eqb k' k) eqn:Hk; rewrite !fmap_cons; cbn [fst].
    + apply String.eqb_eq in Hk as ->. clear IH.
      case_decide as Hin; [done|]. exfalso. apply Hin, elem_of_cons. by left.
    + apply String.eqb_neq in Hk. rewrite IH. clear IH.
      destruct (decide (k ∈ d.*1)) as [Hin|Hnin];
        destruct (decide (k ∈ k' :: d.*1)) as [Hin'|Hnin']; try done.
      * exfalso. apply Hnin', elem_of_cons. by right.
      * apply elem_of_cons in Hin' as [->|?]; done.
Qed.

(** C6 as the claim has it fails: pressing "Add Gate" with the form as it
    comes up stores a [TH22] gate without input references, although [TH22]
    unpacks two. *)
Lemma add_gate_stores_short_gate :
  let sess' :=
    add_gate strip_ascii "TH22" "G1" 2 "" 1%Q (mkSession empty_circuit []) in
  circuit sess' = short_gate_circuit
  ∧ dict_get "G1" (gates (circuit sess')) = Some (mkGate "G1" "TH22" [] 1%Q)
  ∧ fixed_arity "TH22" = Some 2%nat
  ∧ length ([] : list string) ≠ 2%nat.
Proof. vm_compute. split_and!; done. Qed.

(** C6, amended.  "Add Gate" checks nothing and cannot fail: whatever the
    kind, the id, the threshold, the input text and the delay, the gate
    [Gate(gid, kindname, input_list, gdelay)] is stored under [gid], where
    [kindname] is [THm] followed by the threshold for the kind
    [CUSTOM - THmn] and the kind as given otherwise, and [input_list] holds
    the stripped non-empty items of the input text; a gate already stored
    under [gid] is overwritten in place, a new one goes last, and the other
    gates, the inputs, the outputs and the wave history stay as they were. *)
Theorem add_gate_stores_verbatim (strip : string → string)
    (gkind gid : string) (m_input : Z) (inputs_raw : string) (gdelay : Q)
    (sess : Session) :
  let sess' := add_gate strip gkind gid m_input inputs_raw gdelay sess in
  let kindname :=
    if String.eqb gkind "CUSTOM - THmn" then "THm" +:+ pretty m_input
    else gkind in
  dict_get gid (gates (circuit sess'))
  = Some (mkGate gid kindname (input_list_of strip inputs_raw) gdelay)
  ∧ (∀ other, other ≠ gid →
       dict_get other (gates (circuit sess'))
       = dict_get other (gates (circuit sess)))
  ∧ (gates (circuit sess')).*1
    = (if decide (gid ∈ (gates (circuit sess)).*1)
       then (gates (circuit sess)).*1
       else ((gates (circuit sess)).*1 ++ [gid])%list)
  ∧ inputs (circuit sess') = inputs (circuit sess)
  ∧ outputs (circuit sess') = outputs (circuit sess)
  ∧ wave_history sess' = wave_history sess.
Proof.
  intros sess' kindname. subst sess' kindname. unfold add_gate. simpl.
  split_and!; try done.
  - rewrite dict_get_set_eq. do 2 f_equal.
    destruct (String.eqb_spec gkind "CUSTOM - THmn") as [->|Hne]; done.
  - intros other Hne. by apply dict_get_set_ne.
  - apply dict_set_keys.
Qed.

(** The kind stored for a custom gate whose threshold is in the range of
    the widget is read back by [evaluate_gate] as that threshold. *)
Lemma custom_kind_parses (m : Z) :
  1 ≤ m ≤ 8 →
  startswith_THm ("THm" +:+ pretty m) = true
  ∧ int_ascii (replace_THm ("THm" +:+ pretty m)) = Some m.
Proof.
  intros Hm.
  assert (m = 1 ∨ m = 2 ∨ m = 3 ∨ m = 4 ∨ m = 5 ∨ m = 6 ∨ m = 7 ∨ m = 8)
    as Hcases by lia.
  destruct_or!; subst m; vm_compute; done.
Qed.

(** ** The statements at concrete inputs *)

Lemma unresolved_reference_is_null_witness :
  let g := mkGate "G1" "TH12" ["A"; "X"] 1%Q in
  let outs : gmap string string := <["OUT" := "X"]> ∅ in
  let state := inputs example_circuit in
  state !! "X" = None
  ∧ length (gather (gate_inputs g) state) = length (gate_inputs g)
  ∧ (∀ i, gate_inputs g !! i = Some "X" →
          gather (gate_inputs g) state !! i = Some (0, 0))
  ∧ evaluate_gate int_ascii g state
    = evaluate_gate int_ascii g (<["X" := (0, 0)]> state)
  ∧ (∀ out, outs !! out = Some "X" →
            final_outputs_of outs state !! out = Some (0, 0)).
Proof.
  intros g outs state.
  assert (Hnone : state !! "X" = None) by (vm_compute; reflexivity).
  exact (conj Hnone
           (unresolved_reference_is_null int_ascii g outs state "X" Hnone)).
Defined.

Lemma fixed_kind_truncation_witness :
  let state := inputs example_circuit in
  let sig := fun src => default (0, 0) (state !! src) in
  evaluate_gate int_ascii (mkGate "G" "TH22" ["A"; "B"; "C"; "D"] 1%Q) state
  = Ok (thmn [sig "A"; sig "B"] 2)
  ∧ evaluate_gate int_ascii (mkGate "G" "TH12" ["A"; "B"; "C"; "D"] 1%Q) state
    = Ok (thmn [sig "A"; sig "B"] 1)
  ∧ evaluate_gate int_ascii (mkGate "G" "TH23" ["A"; "B"; "C"; "D"] 1%Q) state
    = Ok (thmn [sig "A"; sig "B"; sig "C"] 2).
Proof.
  intros state sig.
  pose proof (fixed_kind_truncation int_ascii "G" "TH22" 1%Q "A" "B" "C" ["D"]
                state) as (H22 & _ & _).
  pose proof (fixed_kind_truncation int_ascii "G" "TH12" 1%Q "A" "B" "C" ["D"]
                state) as (_ & H12 & _).
  pose proof (fixed_kind_truncation int_ascii "G" "TH23" 1%Q "A" "B" "C" ["D"]
                state) as (_ & _ & H23).
  exact (conj (H22 eq_refl) (conj (H12 eq_refl) (H23 eq_refl))).
Defined.

Lemma gate_pass_in_place_witness :
  let G1 := mkGate "G1" "TH12" ["A"; "A"] 1%Q in
  let G2 := mkGate "G2" "TH12" ["G1"; "G1"] 1%Q in
  let s := inputs chain_circuit in
  let s2 := <["G1" := (1, 0)]> s in
  s !! "G1" = None
  ∧ s2 !! "G1" = Some (1, 0)
  ∧ (∀ i, gate_inputs G2 !! i = Some "G1" →
          gather (gate_inputs G2) s2 !! i = Some (1, 0))
  ∧ gate_pass int_ascii ([] ++ ("G1", G1) :: [] ++ ("G2", G2) :: []) s false
    = '(s3, c3) ← gate_step int_ascii "G2" G2 s2 true;
      gate_pass int_ascii [] s3 c3.
Proof.
  intros G1 G2 s s2.
  split; [vm_compute; reflexivity|].
  apply (gate_pass_in_place int_ascii [] [] [] "G1" "G2" G1 G2
           s s s2 false false true (1, 0)).
  - apply not_elem_of_nil.
  - reflexivity.
  - vm_compute; reflexivity.
  - vm_compute; reflexivity.
Defined.


Lemma run_deterministic_witness :
  let s1 := mkSession example_circuit [] in
  let s2 := mkSession example_circuit [mkSnapshot 7%Q ∅] in
  (40 ≤ 40)%nat ∧ (40 ≤ 50)%nat ∧ circuit s1 = circuit s2
  ∧ ∃ (sess' : Session) (r : res RunResult),
      run_simulation int_ascii 40 s1 = Some (sess', r)
      ∧ run_simulation int_ascii 50 s2 = Some (sess', r)
      ∧ circuit sess' = circuit s1
      ∧ run_simulation int_ascii 50 sess' = Some (sess', r).
Proof.
  intros s1 s2.
  assert (H1 : (40 ≤ 40)%nat) by lia.
  assert (H2 : (40 ≤ 50)%nat) by lia.
  assert (Hc : circuit s1 = circuit s2) by reflexivity.
  exact (conj H1 (conj H2 (conj Hc
           (run_deterministic int_ascii 40 50 s1 s2 H1 H2 Hc)))).
Defined.

(** * Further properties of the engine *)

(** ** The threshold evaluator *)

Lemma data_inputs_cons (x : Signal) (l : list Signal) :
  data_inputs (x :: l) = (if is_data x then 1 else 0) + data_inputs l.
Proof.
  unfold data_inputs. destruct (is_data x) eqn:Hx.
  - rewrite filter_cons_True by done. simpl length. lia.
  - rewrite filter_cons_False by congruence. lia.
Qed.

Lemma data_inputs_bounds (l : list Signal) :
  0 ≤ data_inputs l ≤ Z.of_nat (length l).
Proof.
  induction l as [|x l IH]; [by cbn|].
  rewrite data_inputs_cons. simpl length. destruct (is_data x); lia.
Qed.

Lemma thmn_fires_iff (inputs : list Signal) (m : Z) :
  thmn inputs m = (1, 0) ↔ m ≤ data_inputs inputs.
Proof.
  unfold thmn. rewrite count_data_filter.
  destruct (Z.leb_spec m (data_inputs inputs)); split; (done || lia).
Qed.

Lemma thmn_null_iff (inputs : list Signal) (m : Z) :
  thmn inputs m = (0, 0) ↔ data_inputs inputs < m.
Proof.
  unfold thmn. rewrite count_data_filter.
  destruct (Z.leb_spec m (data_inputs inputs)); split; (done || lia).
Qed.

Lemma thmn_range (inputs : list Signal) (m : Z) :
  thmn inputs m = (1, 0) ∨ thmn inputs m = (0, 0).
Proof. unfold thmn. destruct (m <=? count_data inputs); auto. Qed.

Lemma data_inputs_Permutation (l1 l2 : list Signal) :
  l1 ≡ₚ l2 → data_inputs l1 = data_inputs l2.
Proof. intros Hp. unfold data_inputs. by rewrite Hp. Qed.

(** Replacing signals by signals that are DATA wherever the old ones were
    does not lower the count. *)
Lemma data_inputs_mono (l1 l2 : list Signal) :
  Forall2 (fun a b => is_data a = true → is_data b = true) l1 l2 →
  data_inputs l1 ≤ data_inputs l2.
Proof.
  induction 1 as [|a b l1 l2 Hab _ IH]; [done|].
  rewrite !data_inputs_cons.
  destruct (is_data a); [rewrite Hab by done|destruct (is_data b)]; lia.
Qed.

(** X1.  [thmn] is antitone in the threshold, monotone in the signals
    (making more of them DATA never turns a firing gate off) and blind to
    the order of its inputs. *)
Theorem thmn_monotone (l1 l2 : list Signal) (m m' : Z) :
  (m' ≤ m → thmn l1 m = (1, 0) → thmn l1 m' = (1, 0))
  ∧ (Forall2 (fun a b => is_data a = true → is_data b = true) l1 l2 →
     thmn l1 m = (1, 0) → thmn l2 m = (1, 0))
  ∧ (l1 ≡ₚ l2 → thmn l1 m = thmn l2 m).
Proof.
  split_and!.
  - rewrite !thmn_fires_iff. lia.
  - intros Hmono%data_inputs_mono. rewrite !thmn_fires_iff. lia.
  - intros Hp%data_inputs_Permutation. unfold thmn.
    by rewrite !count_data_filter, Hp.
Qed.

Lemma thmn_monotone_witness :
  (1 ≤ 2 ∧ thmn [(1, 0); (0, 1)] 2 = (1, 0) ∧ thmn [(1, 0); (0, 1)] 1 = (1, 0))
  ∧ (thmn [(1, 0); (0, 0)] 1 = (1, 0) ∧ thmn [(1, 1); (0, 1)] 1 = (1, 0))
  ∧ thmn [(1, 0); (0, 0)] 1 = thmn [(0, 0); (1, 0)] 1.
Proof.
  pose proof (thmn_monotone [(1, 0); (0, 1)] [] 2 1) as (H1 & _ & _).
  pose proof (thmn_monotone [(1, 0); (0, 0)] [(1, 1); (0, 1)] 1 1) as (_ & H2 & _).
  pose proof (thmn_monotone [(1, 0); (0, 0)] [(0, 0); (1, 0)] 1 1) as (_ & _ & H3).
  assert (Ha : 1 ≤ 2) by lia.
  assert (Hb : thmn [(1, 0); (0, 1)] 2 = (1, 0)) by reflexivity.
  assert (Hc : Forall2 (fun a b => is_data a = true → is_data b = true)
                 [(1, 0); (0, 0)] [(1, 1); (0, 1)])
    by (repeat constructor).
  assert (Hd : thmn [(1, 0); (0, 0)] 1 = (1, 0)) by reflexivity.
  assert (He : [(1, 0); (0, 0)] ≡ₚ [(0, 0); (1, 0)]) by apply perm_swap.
  exact (conj (conj Ha (conj Hb (H1 Ha Hb)))
           (conj (conj Hd (H2 Hc Hd)) (H3 He))).
Defined.

(** X2.  The prebuilt gates read only whether their arguments are DATA:
    [th22] fires when both are, [th12] when one of them is and [th23] when
    two of the three are; in every other case they return [(0,0)]. *)
Theorem prebuilt_gates_spec (a b c : Signal) :
  th22 a b = (if is_data a && is_data b then (1, 0) else (0, 0))
  ∧ th12 a b = (if is_data a || is_data b then (1, 0) else (0, 0))
  ∧ th23 a b c
    = (if is_data a && is_data b || is_data a && is_data c
          || is_data b && is_data c
       then (1, 0) else (0, 0)).
Proof.
  unfold th22, th12, th23, thmn, count_data. simpl.
  destruct (is_data a), (is_data b), (is_data c); done.
Qed.

(** X3.  A threshold of zero or less fires on every input list, the empty
    one included, and a threshold above the number of inputs never fires. *)
Theorem thmn_extreme_thresholds (inputs : list Signal) (m : Z) :
  (m ≤ 0 → thmn inputs m = (1, 0))
  ∧ (Z.of_nat (length inputs) < m → thmn inputs m = (0, 0)).
Proof.
  pose proof (data_inputs_bounds inputs).
  split; intros Hm; [apply thmn_fires_iff|apply thmn_null_iff]; lia.
Qed.

Lemma thmn_extreme_thresholds_witness :
  (0 ≤ 0 ∧ thmn [] 0 = (1, 0))
  ∧ (Z.of_nat (length [(1, 0); (1, 1)]) < 3 ∧ thmn [(1, 0); (1, 1)] 3 = (0, 0)).
Proof.
  pose proof (thmn_extreme_thresholds [] 0) as [H1 _].
  pose proof (thmn_extreme_thresholds [(1, 0); (1, 1)] 3) as [_ H2].
  assert (Ha : 0 ≤ 0) by lia.
  assert (Hb : Z.of_nat (length [(1, 0); (1, 1)]) < 3) by (simpl; lia).
  exact (conj (conj Ha (H1 Ha)) (conj Hb (H2 Hb))).
Defined.

(** ** Evaluating one gate *)

Lemma gather_cons (src : string) (srcs : list string)
    (state : gmap string Signal) :
  gather (src :: srcs) state
  = default (0, 0) (state !! src) :: gather srcs state.
Proof. simpl. by destruct (state !! src). Qed.

Lemma gather_fmap (srcs : list string) (state : gmap string Signal) :
  gather srcs state = (fun src => default (0, 0) (state !! src)) <$> srcs.
Proof.
  induction srcs as [|src srcs IH]; [done|].
  by rewrite gather_cons, fmap_cons, IH.
Qed.

Lemma call2_pair (f : Signal → Signal → Signal) (sigs : list Signal) :
  length sigs = 2%nat →
  ∃ a b, sigs = [a; b] ∧ call2 f sigs = Ok (f a b).
Proof. destruct sigs as [|a [|b [|c sigs]]]; intros [=]. eauto. Qed.

Lemma call3_triple (f : Signal → Signal → Signal → Signal) (sigs : list Signal) :
  length sigs = 3%nat →
  ∃ a b c, sigs = [a; b; c] ∧ call3 f sigs = Ok (f a b c).
Proof. destruct sigs as [|a [|b [|c [|d sigs]]]]; intros [=]. eauto 6. Qed.

Section Evaluation.

Variable int_of_str : string → option Z.

(** A gate that has the references its kind unpacks is evaluated by [thmn]
    on the signals of the references it reads, with its threshold. *)
Lemma evaluate_gate_thmn (g : Gate) (state : gmap string Signal) :
  arity_ok g = true →
  evaluate_gate int_of_str g state
  = Ok (thmn (gather (eval_refs g) state) (eval_threshold int_of_str g)).
Proof.
  unfold arity_ok, evaluate_gate, eval_refs, eval_threshold.
  rewrite gather_length.
  destruct (startswith_THm (kind g)); [done|].
  destruct (String.eqb (kind g) "TH22").
  { intros Hlen%Nat.leb_le. rewrite gather_take.
    destruct (call2_pair th22 (gather (take 2 (gate_inputs g)) state))
      as (a & b & -> & ->); [|done].
    rewrite gather_length, length_take. lia. }
  destruct (String.eqb (kind g) "TH12").
  { intros Hlen%Nat.leb_le. rewrite gather_take.
    destruct (call2_pair th12 (gather (take 2 (gate_inputs g)) state))
      as (a & b & -> & ->); [|done].
    rewrite gather_length, length_take. lia. }
  destruct (String.eqb (kind g) "TH23"); [|done].
  intros Hlen%Nat.leb_le. rewrite gather_take.
  destruct (call3_triple th23 (gather (take 3 (gate_inputs g)) state))
    as (a & b & c & -> & ->); [|done].
  rewrite gather_length, length_take. lia.
Qed.

Lemma eval_refs_subseteq (g : Gate) : eval_refs g ⊆ gate_inputs g.
Proof.
  unfold eval_refs. repeat case_match; try done; apply subseteq_take.
Qed.

Lemma evaluate_gate_bit (g : Gate) (state : gmap string Signal) (v : Signal) :
  evaluate_gate int_of_str g state = Ok v → v = (1, 0) ∨ v = (0, 0).
Proof.
  destruct (arity_ok g) eqn:Hok.
  - rewrite evaluate_gate_thmn by done. intros [= <-]. apply thmn_range.
  - by rewrite evaluate_gate_raise.
Qed.

(** X4.  Whatever the circuit and the state, a gate evaluates to [(1,0)] or
    to [(0,0)] when it evaluates at all, and it raises exactly when its
    kind is a fixed one that has fewer input references than it unpacks: no
    gate puts out DATA0 or the quad code. *)
Theorem evaluate_gate_range (g : Gate) (state : gmap string Signal) :
  (arity_ok g = true →
     evaluate_gate int_of_str g state = Ok (1, 0)
     ∨ evaluate_gate int_of_str g state = Ok (0, 0))
  ∧ (arity_ok g = false → evaluate_gate int_of_str g state = Raise TypeError).
Proof.
  split; intros Hok; [|by apply evaluate_gate_raise].
  destruct (evaluate_gate_ok int_of_str g state Hok) as [v Hv].
  rewrite Hv. destruct (evaluate_gate_bit g state v Hv) as [-> | ->]; auto.
Qed.

(** X5.  The outcome of evaluating a gate depends on the state only through
    whether each of its input references carries DATA: two states that
    agree on that for every reference of the gate give the same outcome,
    whatever else they hold. *)
Theorem evaluate_gate_local (g : Gate) (state1 state2 : gmap string Signal) :
  (∀ src, src ∈ gate_inputs g →
          carries_data state1 src = carries_data state2 src) →
  evaluate_gate int_of_str g state1 = evaluate_gate int_of_str g state2.
Proof.
  intros Hagree. destruct (arity_ok g) eqn:Hok.
  - rewrite !evaluate_gate_thmn by done. f_equal.
    assert (Hcount : data_inputs (gather (eval_refs g) state1)
                     = data_inputs (gather (eval_refs g) state2)).
    { pose proof (eval_refs_subseteq g) as Hsub.
      induction (eval_refs g) as [|src refs IH]; [done|].
      rewrite !gather_cons, !data_inputs_cons.
      rewrite IH by (intros x Hx; apply Hsub; by right).
      pose proof (Hagree src (Hsub src ltac:(by left))) as Hsrc.
      unfold carries_data in Hsrc. by rewrite Hsrc. }
    unfold thmn. by rewrite !count_data_filter, Hcount.
  - by rewrite !evaluate_gate_raise.
Qed.

End Evaluation.

Lemma evaluate_gate_range_witness :
  let ok := mkGate "G" "THm1" ["A"; "B"] 1%Q in
  let short := mkGate "G" "TH23" ["A"; "B"] 1%Q in
  let state := inputs example_circuit in
  (arity_ok ok = true
   ∧ (evaluate_gate int_ascii ok state = Ok (1, 0)
      ∨ evaluate_gate int_ascii ok state = Ok (0, 0)))
  ∧ (arity_ok short = false
     ∧ evaluate_gate int_ascii short state = Raise TypeError).
Proof.
  intros ok short state.
  pose proof (evaluate_gate_range int_ascii ok state) as [H1 _].
  pose proof (evaluate_gate_range int_ascii short state) as [_ H2].
  assert (Ha : arity_ok ok = true) by reflexivity.
  assert (Hb : arity_ok short = false) by reflexivity.
  exact (conj (conj Ha (H1 Ha)) (conj Hb (H2 Hb))).
Defined.

Lemma evaluate_gate_local_witness :
  let g := mkGate "G" "TH22" ["A"; "B"] 1%Q in
  let state1 : gmap string Signal := <["B" := (0, 1)]> (<["A" := (1, 0)]> ∅) in
  let state2 : gmap string Signal :=
    <["Z" := (1, 0)]> (<["B" := (1, 1)]> (<["A" := (0, 1)]> ∅)) in
  evaluate_gate int_ascii g state1 = evaluate_gate int_ascii g state2.
Proof.
  intros g state1 state2.
  apply (evaluate_gate_local int_ascii g state1 state2).
  intros src Hsrc.
  apply elem_of_cons in Hsrc as [->|Hsrc]; [vm_compute; reflexivity|].
  apply elem_of_cons in Hsrc as [->|Hsrc]; [vm_compute; reflexivity|].
  by apply elem_of_nil in Hsrc.
Defined.

(** ** Passes and the history of a run *)

Section History.

Variable int_of_str : string → option Z.

Lemma gate_step_cases (gid : string) (g : Gate) (state state' : gmap string Signal)
    (changed changed' : bool) :
  gate_step int_of_str gid g state changed = Ok (state', changed') →
  ∃ v, evaluate_gate int_of_str g state = Ok v
       ∧ ((state !! gid = Some v ∧ state' = state ∧ changed' = changed)
          ∨ (state !! gid ≠ Some v ∧ state' = <[gid := v]> state
             ∧ changed' = true)).
Proof.
  unfold gate_step.
  destruct (evaluate_gate int_of_str g state) as [v|e]; simpl; [|done].
  destruct (decide (state !! gid = Some v)); intros [= <- <-]; eauto 10.
Qed.

(** The flag only goes up during a pass. *)
Lemma gate_pass_flag (gs : list (string * Gate)) (state state' : gmap string Signal)
    (changed' : bool) :
  gate_pass int_of_str gs state true = Ok (state', changed') → changed' = true.
Proof.
  revert state. induction gs as [|[gid g] gs IH]; intros state; simpl.
  - by intros [= _ <-].
  - destruct (gate_step int_of_str gid g state true) as [[s1 c1]|e] eqn:Hs;
      simpl; [|done].
    apply gate_step_cases in Hs as (v & _ & [(_ & _ & ->)|(_ & _ & ->)]);
      apply IH.
Qed.

(** A pass that leaves the flag down has written nothing: every gate holds
    in the state what it evaluates to. *)
Lemma gate_pass_no_change (gs : list (string * Gate))
    (state state' : gmap string Signal) (changed : bool) :
  gate_pass int_of_str gs state changed = Ok (state', false) →
  changed = false ∧ state' = state
  ∧ ∀ gid g, (gid, g) ∈ gs →
      ∃ v, evaluate_gate int_of_str g state = Ok v ∧ state !! gid = Some v.
Proof.
  revert state changed. induction gs as [|[gid g] gs IH]; intros state changed; simpl.
  - intros [= <- <-]. split_and!; [done..|]. by intros ?? ?%elem_of_nil.
  - destruct (gate_step int_of_str gid g state changed) as [[s1 c1]|e] eqn:Hs;
      simpl; [|done].
    intros Hrest.
    apply gate_step_cases in Hs as (v & Hv & [(Hg & -> & ->)|(_ & _ & ->)]).
    + destruct (IH _ _ Hrest) as (-> & -> & Hall). split_and!; [done..|].
      intros gid' g' [[= -> ->]|Hin]%elem_of_cons; eauto.
    + by apply gate_pass_flag in Hrest.
Qed.

(** After a pass every gate id holds [(1,0)] or [(0,0)]. *)
Lemma gate_pass_values (gs : list (string * Gate))
    (state state' : gmap string Signal) (changed changed' : bool) :
  gate_pass int_of_str gs state changed = Ok (state', changed') →
  ∀ x, (x ∈ gs.*1
        ∨ state !! x = Some (1, 0) ∨ state !! x = Some (0, 0)) →
       state' !! x = Some (1, 0) ∨ state' !! x = Some (0, 0).
Proof.
  revert state changed. induction gs as [|[gid g] gs IH]; intros state changed; simpl.
  - intros [= <- <-] x [Hx|Hx]; [by apply elem_of_nil in Hx|done].
  - destruct (gate_step int_of_str gid g state changed) as [[s1 c1]|e] eqn:Hs;
      simpl; [|done].
    intros Hrest x Hx. apply (IH _ _ Hrest).
    apply gate_step_cases in Hs as (v & Hv & Hcase).
    pose proof (evaluate_gate_bit _ _ _ _ Hv) as Hrange.
    destruct (decide (x = gid)) as [->|Hne].
    + right. destruct Hcase as [(Hg & -> & _)|(_ & -> & _)].
      * rewrite Hg. destruct Hrange as [-> | ->]; auto.
      * rewrite lookup_insert_eq. destruct Hrange as [-> | ->]; auto.
    + destruct Hx as [[?|Hx]%elem_of_cons|Hx]; [done|by left|right].
      destruct Hcase as [(_ & -> & _)|(_ & -> & _)]; [done|].
      by rewrite lookup_insert_ne.
Qed.

Lemma sim_loop_trace (gs : list (string * Gate)) (fuel : nat) :
  ∀ (state : gmap string Signal) (history history' : list Snapshot) (t : Q)
    (changed : bool) (out : res LoopExit),
    sim_loop int_of_str fuel gs state history t changed = Some (history', out) →
    ∃ new, history' = (history ++ new)%list
           ∧ trace_ok int_of_str gs state changed new out.
Proof.
  induction fuel as [|fuel IH]; intros state history history' t changed out.
  - simpl. destruct (loop_cond changed t); [done|]. intros [= <- <-].
    exists []. rewrite app_nil_r. simpl. eauto.
  - simpl. destruct (loop_cond changed t) eqn:Hc.
    + apply andb_true_iff in Hc as [-> _].
      destruct (gate_pass int_of_str gs state false) as [[s' c']|e] eqn:Hpass.
      * intros (new & -> & Htrace)%IH.
        exists (mkSnapshot (round3 t) state :: new).
        rewrite <- app_assoc. simpl. by rewrite Hpass.
      * intros [= <- <-]. exists [mkSnapshot (round3 t) state].
        simpl. by rewrite Hpass.
    + intros [= <- <-]. exists []. rewrite app_nil_r. simpl. eauto.
Qed.

Lemma trace_ok_head (gs : list (string * Gate)) (state : gmap string Signal)
    (changed : bool) (new : list Snapshot) (out : res LoopExit) (snap : Snapshot) :
  trace_ok int_of_str gs state changed new out →
  new !! 0%nat = Some snap → signals snap = state ∧ changed = true.
Proof. destruct new as [|s0 new]; [done|]. simpl. by intros (-> & <- & _) [= ->]. Qed.

Lemma trace_ok_consecutive (gs : list (string * Gate)) (new : list Snapshot) :
  ∀ (state : gmap string Signal) (changed : bool) (out : res LoopExit)
    (i : nat) (a b : Snapshot),
    trace_ok int_of_str gs state changed new out →
    new !! i = Some a → new !! S i = Some b →
    gate_pass int_of_str gs (signals a) false = Ok (signals b, true).
Proof.
  induction new as [|s0 new IH]; intros state changed out i a b; [done|].
  simpl. intros (_ & Hs0 & Hpass). destruct i as [|i]; simpl.
  - intros [= ->] Hb. rewrite Hs0.
    destruct (gate_pass int_of_str gs state false) as [[s' c']|e].
    + by destruct (trace_ok_head _ _ _ _ _ _ Hpass Hb) as [-> ->].
    + destruct Hpass as [-> _]. done.
  - intros Ha Hb.
    destruct (gate_pass int_of_str gs state false) as [[s' c']|e].
    + by eapply IH.
    + destruct Hpass as [-> _]. done.
Qed.

Lemma trace_ok_exit (gs : list (string * Gate)) (new : list Snapshot) :
  ∀ (state : gmap string Signal) (changed : bool) (ex : LoopExit),
    trace_ok int_of_str gs state changed new (Ok ex) →
    match last new with
    | None => exit_state ex = state ∧ exit_changed ex = changed
    | Some snap =>
        gate_pass int_of_str gs (signals snap) false
        = Ok (exit_state ex, exit_changed ex)
    end.
Proof.
  induction new as [|s0 new IH]; intros state changed ex; cbn [trace_ok].
  - by intros [t [= ->]].
  - intros (_ & Hs0 & Hpass).
    destruct (gate_pass int_of_str gs state false) as [[s' c']|e] eqn:Hp;
      [|by destruct Hpass].
    specialize (IH _ _ _ Hpass). rewrite last_cons.
    destruct (last new) as [snap|]; [done|].
    destruct IH as [-> ->]. by rewrite Hs0.
Qed.

(** A property of states that every pass keeps holds in all snapshots and
    at the exit. *)
Lemma trace_ok_invariant (P : gmap string Signal → Prop)
    (gs : list (string * Gate)) (new : list Snapshot) :
  (∀ s s' c', P s → gate_pass int_of_str gs s false = Ok (s', c') → P s') →
  ∀ (state : gmap string Signal) (changed : bool) (out : res LoopExit),
    P state →
    trace_ok int_of_str gs state changed new out →
    (∀ snap, snap ∈ new → P (signals snap))
    ∧ (∀ ex, out = Ok ex → P (exit_state ex)).
Proof.
  intros Hkeep. induction new as [|s0 new IH]; intros state changed out HP; simpl.
  - intros [t ->]. split; [by intros ? ?%elem_of_nil|]. by intros ex [= <-].
  - intros (_ & Hs0 & Hpass).
    destruct (gate_pass int_of_str gs state false) as [[s' c']|e] eqn:Hp.
    + destruct (IH s' c' out (Hkeep _ _ _ HP Hp) Hpass) as [Hsnaps Hexit].
      split; [|done]. intros snap [->|Hin]%elem_of_cons; [by rewrite Hs0|auto].
    + destruct Hpass as [-> ->]. split; [|done].
      intros snap [->|Hin]%elem_of_cons; [by rewrite Hs0|].
      by apply elem_of_nil in Hin.
Qed.

End History.

(** ** What a run records *)

Section Recorded.

Variable int_of_str : string → option Z.

(** X6.  The history of a run is the orbit of the pass: it starts with the
    inputs, each snapshot but the last is followed by the state that one
    pass makes of it, that pass having changed something, and the state the
    loop is left with is what one pass makes of the last snapshot. *)
Theorem history_is_orbit (fuel : nat) (circ : Circuit)
    (history : list Snapshot) (out : res LoopExit) :
  sim_loop int_of_str fuel (gates circ) (inputs circ) [] 0%Q true
  = Some (history, out) →
  (∀ snap, history !! 0%nat = Some snap → signals snap = inputs circ)
  ∧ (∀ i a b, history !! i = Some a → history !! S i = Some b →
       gate_pass int_of_str (gates circ) (signals a) false
       = Ok (signals b, true))
  ∧ (∀ ex snap, out = Ok ex → last history = Some snap →
       gate_pass int_of_str (gates circ) (signals snap) false
       = Ok (exit_state ex, exit_changed ex)).
Proof.
  intros (new & -> & Htrace)%sim_loop_trace. simpl. split_and!.
  - intros snap Hsnap. by destruct (trace_ok_head _ _ _ _ _ _ _ Htrace Hsnap).
  - intros i a b. by eapply trace_ok_consecutive.
  - intros ex snap -> Hlast.
    pose proof (trace_ok_exit _ _ _ _ _ _ Htrace) as Hexit.
    by rewrite Hlast in Hexit.
Qed.

(** X7.  A run that settles ends in a fixed point of the circuit: when the
    loop is left with [changed] down, one more pass over the final state
    changes nothing, and every gate holds in the final state exactly what it
    evaluates to there. *)
Theorem settled_run_is_fixed_point (fuel : nat) (circ : Circuit)
    (history : list Snapshot) (ex : LoopExit) :
  sim_loop int_of_str fuel (gates circ) (inputs circ) [] 0%Q true
  = Some (history, Ok ex) →
  exit_changed ex = false →
  gate_pass int_of_str (gates circ) (exit_state ex) false
  = Ok (exit_state ex, false)
  ∧ ∀ gid g, (gid, g) ∈ gates circ →
      ∃ v, evaluate_gate int_of_str g (exit_state ex) = Ok v
           ∧ exit_state ex !! gid = Some v.
Proof.
  intros (new & -> & Htrace)%sim_loop_trace Hsettled.
  pose proof (trace_ok_exit _ _ _ _ _ _ Htrace) as Hexit.
  destruct (last new) as [snap|]; [|by destruct Hexit as [_ Hc]; congruence].
  rewrite Hsettled in Hexit.
  destruct (gate_pass_no_change _ _ _ _ _ Hexit) as (_ & Heq & Hall).
  rewrite <- Heq in Hall. rewrite <- Heq in Hexit at 1. done.
Qed.

(** X8.  The simulation never touches a name that is no gate id: such a
    name holds in every snapshot and in the final state what the inputs
    hold under it, or nothing if it is no input. *)
Theorem inputs_are_preserved (fuel : nat) (circ : Circuit)
    (history : list Snapshot) (out : res LoopExit) (x : string) :
  sim_loop int_of_str fuel (gates circ) (inputs circ) [] 0%Q true
  = Some (history, out) →
  x ∉ (gates circ).*1 →
  (∀ snap, snap ∈ history → signals snap !! x = inputs circ !! x)
  ∧ (∀ ex, out = Ok ex → exit_state ex !! x = inputs circ !! x).
Proof.
  intros (new & -> & Htrace)%sim_loop_trace Hx. simpl.
  apply (trace_ok_invariant int_of_str (fun s => s !! x = inputs circ !! x)
           (gates circ) new) with (changed := true) (state := inputs circ);
    [|done..].
  intros s s' c' Hs Hpass. rewrite <- Hs. by eapply gate_pass_other.
Qed.

(** X9.  From the second snapshot on, and in the final state, every gate id
    holds [(1,0)] or [(0,0)], whatever an input of the same name held
    before. *)
Theorem gates_hold_bits (fuel : nat) (circ : Circuit)
    (history : list Snapshot) (out : res LoopExit) (gid : string) :
  sim_loop int_of_str fuel (gates circ) (inputs circ) [] 0%Q true
  = Some (history, out) →
  gid ∈ (gates circ).*1 →
  (∀ i snap, history !! S i = Some snap →
     signals snap !! gid = Some (1, 0) ∨ signals snap !! gid = Some (0, 0))
  ∧ (∀ ex, out = Ok ex → history ≠ [] →
     exit_state ex !! gid = Some (1, 0) ∨ exit_state ex !! gid = Some (0, 0)).
Proof.
  intros (new & -> & Htrace)%sim_loop_trace Hgid. simpl. split.
  - intros i snap Hsnap.
    destruct (lookup_lt_is_Some_2 new i) as [a Ha].
    { apply lookup_lt_Some in Hsnap. lia. }
    pose proof (trace_ok_consecutive _ _ _ _ _ _ _ _ _ Htrace Ha Hsnap) as Hpass.
    eapply gate_pass_values; [exact Hpass|by left].
  - intros ex -> Hne.
    pose proof (trace_ok_exit _ _ _ _ _ _ Htrace) as Hexit.
    destruct (last new) as [snap|] eqn:Hlast.
    + eapply gate_pass_values; [exact Hexit|by left].
    + by apply last_None in Hlast.
Qed.

End Recorded.

(** ** Circuits whose gate ids are no input names *)

Lemma filter_length_le {A : Type} (P Q : A → Prop)
    `{∀ x, Decision (P x)} `{∀ x, Decision (Q x)} (l : list A) :
  (∀ x, x ∈ l → P x → Q x) →
  (length (filter P l) ≤ length (filter Q l))%nat.
Proof.
  induction l as [|a l IH]; intros HPQ; [done|].
  assert (Hl : (length (filter P l) ≤ length (filter Q l))%nat).
  { apply IH. intros x Hx. apply HPQ. by right. }
  destruct (decide (P a)) as [HP|HP].
  - rewrite (filter_cons_True P) by done.
    rewrite (filter_cons_True Q) by (apply HPQ; [by left|done]). simpl. lia.
  - rewrite (filter_cons_False P) by done.
    destruct (decide (Q a)).
    + rewrite (filter_cons_True Q) by done. simpl. lia.
    + by rewrite (filter_cons_False Q).
Qed.

Lemma filter_length_lt {A : Type} (P Q : A → Prop)
    `{∀ x, Decision (P x)} `{∀ x, Decision (Q x)} (l : list A) (a : A) :
  (∀ x, x ∈ l → P x → Q x) → a ∈ l → Q a → ¬ P a →
  (length (filter P l) < length (filter Q l))%nat.
Proof.
  induction l as [|b l IH]; intros HPQ Ha HQa HPa; [by apply elem_of_nil in Ha|].
  assert (HPQl : ∀ x, x ∈ l → P x → Q x) by (intros x Hx; apply HPQ; by right).
  pose proof (filter_length_le P Q l HPQl) as Hle.
  apply elem_of_cons in Ha as [<-|Ha].
  - rewrite (filter_cons_False P) by done.
    rewrite (filter_cons_True Q) by done. simpl. lia.
  - specialize (IH HPQl Ha HQa HPa).
    destruct (decide (P b)) as [HP|HP].
    + rewrite (filter_cons_True P) by done.
      rewrite (filter_cons_True Q) by (apply HPQ; [by left|done]). simpl. lia.
    + rewrite (filter_cons_False P) by done.
      destruct (decide (Q b)).
      * rewrite (filter_cons_True Q) by done. simpl. lia.
      * by rewrite (filter_cons_False Q).
Qed.

Lemma NoDup_fst_agree {A B : Type} (l : list (A * B)) (k : A) (v1 v2 : B) :
  NoDup l.*1 → (k, v1) ∈ l → (k, v2) ∈ l → v1 = v2.
Proof.
  induction l as [|[k' v'] l IH]; [by intros _ ?%elem_of_nil|].
  rewrite fmap_cons. simpl. intros [Hk' Hnd]%NoDup_cons H1 H2.
  apply elem_of_cons in H1 as [H1|H1];
    apply elem_of_cons in H2 as [H2|H2].
  - congruence.
  - exfalso. apply Hk'. apply list_elem_of_fmap. exists (k, v2).
    split; [simpl; congruence|done].
  - exfalso. apply Hk'. apply list_elem_of_fmap. exists (k, v1).
    split; [simpl; congruence|done].
  - by apply IH.
Qed.

Lemma carries_data_bit (state : gmap string Signal) (x : string) :
  (∀ v, state !! x = Some v → v = (1, 0) ∨ v = (0, 0)) →
  carries_data state x = true ↔ state !! x = Some (1, 0).
Proof.
  intros Hbit. unfold carries_data. split.
  - destruct (state !! x) as [v|] eqn:Hv; simpl; [|done].
    destruct (Hbit v eq_refl) as [-> | ->]; done.
  - by intros ->.
Qed.

Section Convergence.

Variable int_of_str : string → option Z.
Variable gs : list (string * Gate).
Hypothesis gs_nodup : NoDup gs.*1.
Hypothesis gs_arity : forallb (fun p => arity_ok p.2) gs = true.

Lemma gs_arity_ok (gid : string) (g : Gate) : (gid, g) ∈ gs → arity_ok g = true.
Proof.
  intros Hin. rewrite forallb_forall in gs_arity.
  apply (gs_arity (gid, g)). by apply list_elem_of_In.
Qed.

(** Evaluation is monotone in the names that carry DATA. *)
Lemma evaluate_gate_mono (g : Gate) (state state' : gmap string Signal) :
  arity_ok g = true → data_le state state' →
  evaluate_gate int_of_str g state = Ok (1, 0) →
  evaluate_gate int_of_str g state' = Ok (1, 0).
Proof.
  intros Hok Hle. rewrite !evaluate_gate_thmn by done.
  intros [= Hfire]. f_equal. revert Hfire. rewrite !thmn_fires_iff.
  assert (data_inputs (gather (eval_refs g) state)
          ≤ data_inputs (gather (eval_refs g) state')); [|lia].
  induction (eval_refs g) as [|src refs IH]; [done|].
  rewrite !gather_cons, !data_inputs_cons.
  pose proof (Hle src) as Hsrc. unfold carries_data in Hsrc.
  destruct (is_data (default (0, 0) (state !! src)));
    [rewrite Hsrc by done|destruct (is_data (default (0, 0) (state' !! src)))];
    lia.
Qed.

Lemma gate_step_grows (gid : string) (g : Gate) (state : gmap string Signal)
    (changed : bool) :
  (gid, g) ∈ gs → grown int_of_str gs state →
  ∃ state' changed',
    gate_step int_of_str gid g state changed = Ok (state', changed')
    ∧ grown int_of_str gs state'
    ∧ data_le state state'
    ∧ (∀ x, is_Some (state !! x) → is_Some (state' !! x))
    ∧ is_Some (state' !! gid)
    ∧ ((state' = state ∧ changed' = changed)
       ∨ (changed' = true
          ∧ (state !! gid = None
             ∨ (state !! gid ≠ Some (1, 0) ∧ state' !! gid = Some (1, 0))))).
Proof.
  intros Hin Hgrown.
  destruct (evaluate_gate_ok int_of_str g state (gs_arity_ok _ _ Hin)) as [v Hv].
  pose proof (evaluate_gate_bit _ _ _ _ Hv) as Hbit.
  destruct (Hgrown gid g Hin) as [Hold Hjust].
  unfold gate_step. rewrite Hv. simpl.
  destruct (decide (state !! gid = Some v)) as [Heq|Hne].
  { exists state, changed.
    split_and!; [done|done|by intros ??|done|by rewrite Heq|by left]. }
  exists (<[gid := v]> state), true.
  assert (Hle : data_le state (<[gid := v]> state)).
  { intros x Hx. unfold carries_data in *.
    destruct (decide (x = gid)) as [->|Hxne]; [|by rewrite lookup_insert_ne].
    rewrite lookup_insert_eq. simpl.
    destruct (state !! gid) as [w|] eqn:Hw; simpl in Hx; [|done].
    destruct (Hold w eq_refl) as [-> | ->]; [|done].
    rewrite (Hjust eq_refl) in Hv. by simplify_eq. }
  split_and!; try done.
  - intros gid' g' Hin'. split.
    + intros w. destruct (decide (gid' = gid)) as [->|Hgne].
      * rewrite lookup_insert_eq. by intros [= <-].
      * rewrite lookup_insert_ne by done. by apply (Hgrown gid' g' Hin').
    + intros Hfire. apply (evaluate_gate_mono g' state); [by eapply gs_arity_ok|done|].
      destruct (decide (gid' = gid)) as [->|Hgne].
      * rewrite lookup_insert_eq in Hfire. simplify_eq.
        by rewrite (NoDup_fst_agree gs gid g' g gs_nodup Hin' Hin).
      * rewrite lookup_insert_ne in Hfire by done.
        by apply (Hgrown gid' g' Hin').
  - intros x Hx. destruct (decide (x = gid)) as [->|Hxne].
    + by rewrite lookup_insert_eq.
    + by rewrite lookup_insert_ne.
  - by rewrite lookup_insert_eq.
  - right. split; [done|].
    destruct (state !! gid) as [w|] eqn:Hw; [right|by left].
    rewrite lookup_insert_eq.
    destruct (Hold w eq_refl) as [-> | ->].
    + rewrite (Hjust eq_refl) in Hv. by simplify_eq.
    + destruct Hbit as [-> | ->]; done.
Qed.

Lemma data_le_trans (s1 s2 s3 : gmap string Signal) :
  data_le s1 s2 → data_le s2 s3 → data_le s1 s3.
Proof. intros H12 H23 x Hx. by apply H23, H12. Qed.

Lemma grown_fires (state state' : gmap string Signal) (gid : string) :
  gid ∈ gs.*1 → grown int_of_str gs state' → data_le state state' →
  state !! gid = Some (1, 0) → state' !! gid = Some (1, 0).
Proof.
  intros (p & -> & Hp)%list_elem_of_fmap Hgrown Hle Hfire.
  destruct p as [gid g]. simpl in *.
  apply carries_data_bit; [by apply (Hgrown gid g)|].
  apply Hle. unfold carries_data. by rewrite Hfire.
Qed.

Lemma gate_pass_grows (l : list (string * Gate)) :
  ∀ (state : gmap string Signal) (changed : bool),
    (∀ p, p ∈ l → p ∈ gs) → grown int_of_str gs state →
    ∃ state' changed',
      gate_pass int_of_str l state changed = Ok (state', changed')
      ∧ grown int_of_str gs state'
      ∧ data_le state state'
      ∧ (∀ x, is_Some (state !! x) → is_Some (state' !! x))
      ∧ (∀ gid, gid ∈ l.*1 → is_Some (state' !! gid))
      ∧ ((state' = state ∧ changed' = changed)
         ∨ (changed' = true
            ∧ ∃ gid, gid ∈ l.*1
                ∧ (state !! gid = None
                   ∨ (state !! gid ≠ Some (1, 0)
                      ∧ state' !! gid = Some (1, 0))))).
Proof.
  induction l as [|[gid g] l IH]; intros state changed Hsub Hgrown.
  - exists state, changed. simpl.
    split_and!; [done|done|by intros ??|done|by intros ? ?%elem_of_nil|by left].
  - assert (Hin : (gid, g) ∈ gs) by (apply Hsub; by left).
    destruct (gate_step_grows gid g state changed Hin Hgrown)
      as (s1 & c1 & Hstep & Hg1 & Hle1 & Hdom1 & Hgid1 & Hch1).
    destruct (IH s1 c1) as (s2 & c2 & Hpass & Hg2 & Hle2 & Hdom2 & Hids2 & Hch2);
      [intros p Hp; apply Hsub; by right|done|].
    exists s2, c2. simpl. rewrite Hstep. simpl. rewrite Hpass.
    split_and!; try done.
    + by eapply data_le_trans.
    + intros x Hx. by apply Hdom2, Hdom1.
    + intros gid' [->|Hin']%elem_of_cons; [by apply Hdom2|by apply Hids2].
    + assert (Hgid_in : gid ∈ gs.*1)
        by (apply list_elem_of_fmap; by exists (gid, g)).
      destruct Hch1 as [[-> ->]|[-> Hw1]].
      * destruct Hch2 as [[-> ->]|[-> (gid' & Hin' & Hw2)]]; [by left|right].
        split; [done|]. exists gid'. split; [by right|done].
      * right. split.
        { destruct Hch2 as [[_ ->]|[-> _]]; done. }
        exists gid. split; [by left|].
        destruct Hw1 as [Hnone|[Hne Hfire]]; [by left|right].
        split; [done|]. by eapply grown_fires.
Qed.

Lemma not_firing_le (state state' : gmap string Signal) :
  grown int_of_str gs state' → data_le state state' →
  (not_firing gs state' ≤ not_firing gs state)%nat.
Proof.
  intros Hgrown Hle. unfold not_firing. apply filter_length_le.
  intros gid Hgid Hnot Hfire. apply Hnot. by eapply grown_fires.
Qed.

Lemma not_firing_lt (state state' : gmap string Signal) (gid : string) :
  grown int_of_str gs state' → data_le state state' →
  gid ∈ gs.*1 → state !! gid ≠ Some (1, 0) → state' !! gid = Some (1, 0) →
  (not_firing gs state' < not_firing gs state)%nat.
Proof.
  intros Hgrown Hle Hgid Hnot Hfire. unfold not_firing.
  apply (filter_length_lt _ _ _ gid); try done.
  - intros x Hx Hx' Hxfire. apply Hx'. by eapply grown_fires.
  - by intros ?.
Qed.

Lemma not_firing_bound (state : gmap string Signal) :
  (not_firing gs state ≤ length gs)%nat.
Proof.
  unfold not_firing. rewrite <- (length_fmap fst gs). apply length_filter.
Qed.

(** From a grown state that holds every gate id, the loop settles after at
    most one pass more than there are gates that do not fire. *)
Lemma sim_loop_settles (j : nat) :
  ∀ (fuel : nat) (state : gmap string Signal) (history : list Snapshot)
    (t : Q) (k : nat),
    grown int_of_str gs state →
    (∀ gid, gid ∈ gs.*1 → is_Some (state !! gid)) →
    (not_firing gs state ≤ j)%nat →
    (t == half_steps k)%Q → (k + j + 1 ≤ 40)%nat → (j + 1 ≤ fuel)%nat →
    ∃ new ex,
      sim_loop int_of_str fuel gs state history t true
      = Some ((history ++ new)%list, Ok ex)
      ∧ exit_changed ex = false
      ∧ (1 ≤ length new ≤ j + 1)%nat.
Proof.
  induction j as [|j IH];
    intros fuel state history t k Hgrown Hids Hnf Ht Hk Hfuel;
    (destruct fuel as [|fuel]; [lia|]);
    (rewrite sim_loop_step by (apply (loop_cond_spec _ _ k Ht); split; [done|lia]));
    destruct (gate_pass_grows gs state false) as
      (s' & c' & Hpass & Hg' & Hle' & Hdom' & _ & Hch); try done;
    rewrite Hpass.
  - destruct Hch as [[-> ->]|[-> (gid & Hgid & [Hnone|[Hne Hfire]])]].
    + exists [mkSnapshot (round3 t) state], (mkLoopExit state (t + (1 # 2))%Q false).
      rewrite sim_loop_exit by done. simpl. split_and!; (done || lia).
    + destruct (Hids gid Hgid) as [w Hw]. congruence.
    + pose proof (not_firing_lt state s' gid Hg' Hle' Hgid Hne Hfire). lia.
  - destruct Hch as [[-> ->]|[-> (gid & Hgid & [Hnone|[Hne Hfire]])]].
    + exists [mkSnapshot (round3 t) state], (mkLoopExit state (t + (1 # 2))%Q false).
      rewrite sim_loop_exit by done. simpl. split_and!; (done || lia).
    + destruct (Hids gid Hgid) as [w Hw]. congruence.
    + pose proof (not_firing_lt state s' gid Hg' Hle' Hgid Hne Hfire) as Hlt.
      destruct (IH fuel s' (history ++ [mkSnapshot (round3 t) state])%list
                  (t + (1 # 2))%Q (S k))
        as (new & ex & Hrun & Hset & Hlen); try done;
        [by intros x Hx; apply Hdom', Hids|lia|by apply half_steps_succ|lia|lia|].
      exists (mkSnapshot (round3 t) state :: new), ex.
      rewrite Hrun, <- app_assoc. simpl. split_and!; (done || lia).
Qed.

End Convergence.

(** X10.  A circuit whose gate ids are distinct and are no input names,
    whose fixed-kind gates have the references they unpack, and which has
    at most 38 gates always settles: the run is left with [changed] down,
    after at most two passes more than there are gates.  Feedback between
    the gates, self-references included, does not matter. *)
Theorem collision_free_run_settles (int_of_str : string → option Z)
    (fuel : nat) (circ : Circuit) :
  (40 ≤ fuel)%nat →
  NoDup (gates circ).*1 →
  forallb (fun p => arity_ok p.2) (gates circ) = true →
  (∀ gid, gid ∈ (gates circ).*1 → inputs circ !! gid = None) →
  (length (gates circ) ≤ 38)%nat →
  ∃ history ex,
    sim_loop int_of_str fuel (gates circ) (inputs circ) [] 0%Q true
    = Some (history, Ok ex)
    ∧ exit_changed ex = false
    ∧ (1 ≤ length history ≤ length (gates circ) + 2)%nat.
Proof.
  intros Hfuel Hnd Harity Hfree Hsize.
  destruct fuel as [|fuel]; [lia|].
  assert (Hgrown : grown int_of_str (gates circ) (inputs circ)).
  { intros gid g Hin.
    assert (Hnone : inputs circ !! gid = None).
    { apply Hfree, list_elem_of_fmap. by exists (gid, g). }
    rewrite Hnone. split; [by intros v [=]|by intros [=]]. }
  rewrite sim_loop_step by (apply (loop_cond_spec _ _ 0 zero_half_steps); split; [done|lia]).
  destruct (gate_pass_grows int_of_str (gates circ) Hnd Harity (gates circ)
              (inputs circ) false) as (s1 & c1 & Hpass & Hg1 & _ & _ & Hids & Hch);
    [done|done|].
  rewrite Hpass. destruct Hch as [[-> ->]|[-> _]].
  - eexists [_], _. rewrite sim_loop_exit by done. simpl.
    split_and!; (done || lia).
  - destruct (sim_loop_settles int_of_str (gates circ) Hnd Harity
                (length (gates circ)) fuel s1
                [mkSnapshot (round3 0) (inputs circ)] (0 + (1 # 2))%Q 1)
      as (new & ex & Hrun & Hset & Hlen);
      [done|done|apply not_firing_bound|apply half_steps_succ, zero_half_steps
      |lia|lia|].
    exists (mkSnapshot (round3 0) (inputs circ) :: new), ex.
    split_and!; [exact Hrun|done|simpl; lia|simpl; lia].
Qed.

Lemma collision_free_run_settles_witness :
  (40 ≤ 40)%nat
  ∧ NoDup (gates chain_circuit).*1
  ∧ forallb (fun p => arity_ok p.2) (gates chain_circuit) = true
  ∧ (∀ gid, gid ∈ (gates chain_circuit).*1 → inputs chain_circuit !! gid = None)
  ∧ (length (gates chain_circuit) ≤ 38)%nat
  ∧ ∃ history ex,
      sim_loop int_ascii 40 (gates chain_circuit) (inputs chain_circuit)
        [] 0%Q true = Some (history, Ok ex)
      ∧ exit_changed ex = false
      ∧ (1 ≤ length history ≤ length (gates chain_circuit) + 2)%nat.
Proof.
  assert (H1 : (40 ≤ 40)%nat) by lia.
  assert (H2 : NoDup (gates chain_circuit).*1)
    by (apply (bool_decide_unpack _); vm_compute; exact I).
  assert (H3 : forallb (fun p => arity_ok p.2) (gates chain_circuit) = true)
    by reflexivity.
  assert (H4 : ∀ gid, gid ∈ (gates chain_circuit).*1 →
                      inputs chain_circuit !! gid = None).
  { intros gid Hin. simpl in Hin.
    apply elem_of_cons in Hin as [->|Hin]; [vm_compute; reflexivity|].
    apply elem_of_cons in Hin as [->|Hin]; [vm_compute; reflexivity|].
    by apply elem_of_nil in Hin. }
  assert (H5 : (length (gates chain_circuit) ≤ 38)%nat) by (simpl; lia).
  exact (conj H1 (conj H2 (conj H3 (conj H4 (conj H5
           (collision_free_run_settles int_ascii 40 chain_circuit
              H1 H2 H3 H4 H5)))))).
Defined.

(** ** The statements on runs at the example circuit *)

Lemma example_loop :
  sim_loop int_ascii 2 (gates example_circuit) (inputs example_circuit)
    [] 0%Q true = Some (example_history, Ok example_exit).
Proof. vm_compute. reflexivity. Qed.

Lemma history_is_orbit_witness :
  (∀ snap, example_history !! 0%nat = Some snap →
           signals snap = inputs example_circuit)
  ∧ (∀ i a b, example_history !! i = Some a → example_history !! S i = Some b →
       gate_pass int_ascii (gates example_circuit) (signals a) false
       = Ok (signals b, true))
  ∧ (∀ ex snap, Ok example_exit = Ok ex → last example_history = Some snap →
       gate_pass int_ascii (gates example_circuit) (signals snap) false
       = Ok (exit_state ex, exit_changed ex)).
Proof.
  exact (history_is_orbit int_ascii 2 example_circuit example_history
           (Ok example_exit) example_loop).
Defined.

Lemma settled_run_is_fixed_point_witness :
  exit_changed example_exit = false
  ∧ gate_pass int_ascii (gates example_circuit) (exit_state example_exit) false
    = Ok (exit_state example_exit, false)
  ∧ ∀ gid g, (gid, g) ∈ gates example_circuit →
      ∃ v, evaluate_gate int_ascii g (exit_state example_exit) = Ok v
           ∧ exit_state example_exit !! gid = Some v.
Proof.
  assert (Hset : exit_changed example_exit = false) by reflexivity.
  exact (conj Hset
           (settled_run_is_fixed_point int_ascii 2 example_circuit
              example_history example_exit example_loop Hset)).
Defined.

Lemma inputs_are_preserved_witness :
  ("A" ∉ (gates example_circuit).*1)
  ∧ (∀ snap, snap ∈ example_history →
             signals snap !! "A" = inputs example_circuit !! "A")
  ∧ (∀ ex, Ok example_exit = Ok ex →
           exit_state ex !! "A" = inputs example_circuit !! "A").
Proof.
  assert (HA : "A" ∉ (gates example_circuit).*1).
  { simpl. intros Hin.
    apply elem_of_cons in Hin as [[=]|Hin].
    apply elem_of_cons in Hin as [[=]|Hin].
    by apply elem_of_nil in Hin. }
  exact (conj HA
           (inputs_are_preserved int_ascii 2 example_circuit example_history
              (Ok example_exit) "A" example_loop HA)).
Defined.

Lemma gates_hold_bits_witness :
  "G1" ∈ (gates example_circuit).*1
  ∧ (∀ i snap, example_history !! S i = Some snap →
       signals snap !! "G1" = Some (1, 0) ∨ signals snap !! "G1" = Some (0, 0))
  ∧ (∀ ex, Ok example_exit = Ok ex → example_history ≠ [] →
       exit_state ex !! "G1" = Some (1, 0) ∨ exit_state ex !! "G1" = Some (0, 0)).
Proof.
  assert (HG : "G1" ∈ (gates example_circuit).*1) by (simpl; by left).
  exact (conj HG
           (gates_hold_bits int_ascii 2 example_circuit example_history
              (Ok example_exit) "G1" example_loop HG)).
Defined.

(** * Encoders and labels *)

Lemma signal_eqb_spec (a b : Signal) : signal_eqb a b = true ↔ a = b.
Proof.
  destruct a as [a1 a2], b as [b1 b2]. unfold signal_eqb. simpl.
  rewrite andb_true_iff, !Z.eqb_eq. split; [by intros [-> ->]|by intros [= -> ->]].
Qed.

Lemma occurs_app (c : ascii) (s1 s2 : string) :
  occurs c (s1 +:+ s2) = occurs c s1 || occurs c s2.
Proof.
  induction s1 as [|a s1 IH]; [done|].
  change (String a s1 +:+ s2) with (String a (s1 +:+ s2)). simpl.
  by rewrite IH, orb_assoc.
Qed.

(** Two strings cut at the first occurrence of a character agree on both
    sides of the cut. *)
Lemma split_at_char (c : ascii) (s1 s2 r1 r2 : string) :
  occurs c s1 = false → occurs c s2 = false →
  s1 +:+ String c r1 = s2 +:+ String c r2 → s1 = s2 ∧ r1 = r2.
Proof.
  revert s2. induction s1 as [|a s1 IH]; intros [|b s2]; simpl.
  - by intros _ _ [= ->].
  - intros _ [Hb _]%orb_false_iff.
    change (String b s2 +:+ String c r2) with (String b (s2 +:+ String c r2)).
    intros [= <- _]. by rewrite Ascii.eqb_refl in Hb.
  - intros [Ha _]%orb_false_iff _.
    change (String a s1 +:+ String c r1) with (String a (s1 +:+ String c r1)).
    intros [= -> _]. by rewrite Ascii.eqb_refl in Ha.
  - intros [_ H1]%orb_false_iff [_ H2]%orb_false_iff.
    change (String a s1 +:+ String c r1) with (String a (s1 +:+ String c r1)).
    change (String b s2 +:+ String c r2) with (String b (s2 +:+ String c r2)).
    intros [= -> Hrest]. destruct (IH s2 H1 H2 Hrest) as [-> ->]. done.
Qed.

Lemma pretty_N_go_occurs (c : ascii) (x : N) (s : string) :
  (∀ n, pretty_N_char n ≠ c) →
  occurs c (pretty_N_go x s) = occurs c s.
Proof.
  intros Hc. revert s. induction (N.lt_wf_0 x) as [x _ IH]; intros s.
  assert (x = 0 ∨ 0 < x)%N as [->|Hx] by lia; [by rewrite pretty_N_go_0|].
  rewrite pretty_N_go_step by done.
  rewrite IH by (by apply N.div_lt). cbn [occurs].
  destruct (Ascii.eqb_spec (pretty_N_char (x `mod` 10)) c) as [Heq|_]; [|done].
  by destruct (Hc _ Heq).
Qed.

Lemma pretty_Z_occurs (c : ascii) (z : Z) :
  (∀ n, pretty_N_char n ≠ c) → c ≠ "-"%char →
  occurs c (pretty z) = false.
Proof.
  intros Hc Hdash.
  assert (HN : ∀ x : N, occurs c (pretty x) = false).
  { intros x. unfold pretty, pretty_N. case_decide.
    - cbn [occurs]. destruct (Ascii.eqb_spec "0" c) as [Heq|_]; [|done].
      by destruct (Hc 0%N).
    - by rewrite pretty_N_go_occurs. }
  destruct z as [|q|q]; unfold pretty, pretty_Z.
  - apply (HN 0%N).
  - apply (HN (Npos q)).
  - rewrite occurs_app. cbn [occurs].
    destruct (Ascii.eqb_spec "-" c) as [Heq|_]; [by destruct Hdash|].
    apply (HN (Npos q)).
Qed.

Lemma pretty_N_char_not_comma (n : N) : pretty_N_char n ≠ ","%char.
Proof. unfold pretty_N_char. by repeat case_match. Qed.

Lemma pretty_N_char_not_paren (n : N) : pretty_N_char n ≠ ")"%char.
Proof. unfold pretty_N_char. by repeat case_match. Qed.

Lemma str_signal_inj (a b : Signal) : str_signal a = str_signal b → a = b.
Proof.
  destruct a as [a1 a2], b as [b1 b2]. unfold str_signal. simpl.
  change ("(" +:+ ?x) with (String "(" x). intros [= Heq].
  change (", " +:+ ?x) with (String "," (String " " x)) in Heq.
  apply split_at_char in Heq as [H1 [= H2]];
    [|by apply pretty_Z_occurs; [apply pretty_N_char_not_comma|]..].
  change (")") with (String ")" "") in H2.
  apply split_at_char in H2 as [H2 _];
    [|by apply pretty_Z_occurs; [apply pretty_N_char_not_paren|]..].
  apply (inj pretty) in H1. apply (inj pretty) in H2. by subst.
Qed.

Lemma signal_repr_cases (sig : Signal) :
  (sig = (0, 0) ∧ signal_repr sig = "NULL(00)")
  ∨ (sig = (1, 0) ∧ signal_repr sig = "DATA1(10)")
  ∨ (sig = (0, 1) ∧ signal_repr sig = "DATA0(01)")
  ∨ (sig = (1, 1) ∧ signal_repr sig = "QUAD(11)")
  ∨ (¬ canonical sig ∧ signal_repr sig = str_signal sig).
Proof.
  unfold signal_repr, canonical.
  destruct (signal_eqb sig (0, 0)) eqn:H0;
    [apply signal_eqb_spec in H0; auto|].
  destruct (signal_eqb sig (1, 0)) eqn:H1;
    [apply signal_eqb_spec in H1; auto|].
  destruct (signal_eqb sig (0, 1)) eqn:H2;
    [apply signal_eqb_spec in H2; auto 6|].
  destruct (signal_eqb sig (1, 1)) eqn:H3;
    [apply signal_eqb_spec in H3; auto 6|].
  do 4 right. split; [|done].
  intros [->|[->|[->| ->]]]; discriminate.
Qed.

(** X11.  [signal_repr] gives the four signals of the code their four
    labels, gives every other pair of integers the text of the tuple, an
    opening bracket, the first integer, a comma and a space, the second
    integer and a closing bracket, and never gives two different signals the
    same text. *)
Theorem signal_repr_injective (a b : Signal) :
  (signal_repr (0, 0) = "NULL(00)" ∧ signal_repr (1, 0) = "DATA1(10)"
   ∧ signal_repr (0, 1) = "DATA0(01)" ∧ signal_repr (1, 1) = "QUAD(11)")
  ∧ (canonical a ↔
       signal_repr a ∈ ["NULL(00)"; "DATA1(10)"; "DATA0(01)"; "QUAD(11)"])
  ∧ (¬ canonical a →
     signal_repr a = "(" +:+ pretty (fst a) +:+ ", " +:+ pretty (snd a) +:+ ")")
  ∧ (signal_repr a = signal_repr b → a = b)
  ∧ (a ≠ b → signal_repr a ≠ signal_repr b).
Proof.
  assert (Hopen : ∀ sig l, str_signal sig = l →
            l ∈ ["NULL(00)"; "DATA1(10)"; "DATA0(01)"; "QUAD(11)"] → False).
  { intros sig l <-. unfold str_signal.
    change ("(" +:+ ?x) with (String "(" x).
    rewrite !elem_of_cons, elem_of_nil. intros [?|[?|[?|[?|[]]]]]; discriminate. }
  assert (Hinj : signal_repr a = signal_repr b → a = b).
  { destruct (signal_repr_cases a)
      as [[-> ->]|[[-> ->]|[[-> ->]|[[-> ->]|[Hna ->]]]]];
      destruct (signal_repr_cases b)
        as [[-> ->]|[[-> ->]|[[-> ->]|[[-> ->]|[Hnb ->]]]]];
      try reflexivity; try (intros Heq; discriminate Heq);
      try (unfold str_signal; change ("(" +:+ ?x) with (String "(" x);
           intros Heq; discriminate Heq).
    apply str_signal_inj. }
  split; [by split_and!|]. split_and!.
  - unfold canonical.
    destruct (signal_repr_cases a)
      as [[-> ->]|[[-> ->]|[[-> ->]|[[-> ->]|[Hn Hr]]]]];
      try (split; [intros _; set_solver|auto 6]).
    split; [done|]. intros Hin. rewrite Hr in Hin.
    by destruct (Hopen a _ eq_refl Hin).
  - intros Hn.
    destruct (signal_repr_cases a)
      as [[-> _]|[[-> _]|[[-> _]|[[-> _]|[_ Hr]]]]];
      try (exfalso; apply Hn; unfold canonical; by auto 6).
    exact Hr.
  - exact Hinj.
  - intros Hne Heq. by apply Hne, Hinj.
Qed.

Lemma signal_repr_injective_witness :
  (¬ canonical (2, 3)
   ∧ signal_repr (2, 3)
     = "(" +:+ pretty (fst ((2, 3) : Signal)) +:+ ", "
       +:+ pretty (snd ((2, 3) : Signal)) +:+ ")")
  ∧ (((2, 3) : Signal) ≠ (1, 0) ∧ signal_repr (2, 3) ≠ signal_repr (1, 0)).
Proof.
  pose proof (signal_repr_injective (2, 3) (1, 0)) as (_ & _ & H1 & _ & H2).
  assert (Ha : ¬ canonical (2, 3)).
  { intros [H|[H|[H|H]]]; discriminate H. }
  assert (Hb : ((2, 3) : Signal) ≠ (1, 0)) by discriminate.
  exact (conj (conj Ha (H1 Ha)) (conj Hb (H2 Hb))).
Defined.

(** X12.  The encoders only produce signals of the code: [encode_dual]
    gives NULL, DATA1 or DATA0, never the quad code, is DATA exactly on the
    labels [DATA1] and [DATA0] and takes every other text to NULL;
    [encode_quad] reaches each of the four signals and takes every text it
    does not know to NULL. *)
Theorem encoders_spec (s : string) :
  (encode_dual s = (0, 0) ∨ encode_dual s = (1, 0) ∨ encode_dual s = (0, 1))
  ∧ (is_data (encode_dual s) = true ↔ s = "DATA1" ∨ s = "DATA0")
  ∧ canonical (encode_quad s)
  ∧ (is_data (encode_quad s) = true ↔ s = "01" ∨ s = "10" ∨ s = "11")
  ∧ (∀ sig, canonical sig → ∃ l, encode_quad l = sig).
Proof.
  unfold encode_dual, encode_quad, canonical. split_and!.
  - repeat case_match; auto.
  - destruct (String.eqb_spec s "NULL") as [->|?]; [by split; [|intros [|]]|].
    destruct (String.eqb_spec s "DATA1") as [->|?]; [by split; auto|].
    destruct (String.eqb_spec s "DATA0") as [->|?]; [by split; auto|].
    split; [done|by intros [|]].
  - repeat case_match; auto.
  - destruct (String.eqb_spec s "NULL(00)") as [->|?];
      [by split; [|intros [|[|]]]|].
    destruct (String.eqb_spec s "01") as [->|?]; [by split; auto|].
    destruct (String.eqb_spec s "10") as [->|?]; [by split; auto|].
    destruct (String.eqb_spec s "11") as [->|?]; [by split; auto|].
    split; [done|by intros [|[|]]].
  - intros sig [->|[->|[->| ->]]];
      [by exists "NULL(00)"|by exists "10"|by exists "01"|by exists "11"].
Qed.

(** * The editor handlers *)

Lemma fold_insert_lookup {A : Type} (f : A → string) (v : Signal) (l : list A)
    (m : gmap string Signal) (name : string) :
  fold_left (fun ins i => <[f i := v]> ins) l m !! name
  = if decide (name ∈ f <$> l) then Some v else m !! name.
Proof.
  revert m. induction l as [|a l IH]; intros m; cbn [fold_left].
  - rewrite fmap_nil.
    destruct (decide (name ∈ [])) as [Hin|_]; [by apply elem_of_nil in Hin|done].
  - rewrite IH, fmap_cons.
    destruct (decide (name ∈ f <$> l)) as [Hin|Hnin];
      destruct (decide (name ∈ f a :: (f <$> l))) as [Hin'|Hnin'].
    + done.
    + exfalso. apply Hnin'. by right.
    + apply elem_of_cons in Hin' as [->|?]; [|done]. apply lookup_insert_eq.
    + rewrite lookup_insert_ne; [done|]. intros <-. apply Hnin'. by left.
Qed.

(** X13.  "Auto-generate inputs" sets the inputs [I1] to [In] to NULL,
    whether they existed before or not, and leaves every other input, the
    gates and the outputs as they were; for [n] below 1 it does nothing. *)
Theorem auto_generate_inputs_spec (n_inp : Z) (sess : Session) :
  let sess' := auto_generate_inputs n_inp sess in
  (∀ i, 1 ≤ i ≤ n_inp →
     inputs (circuit sess') !! ("I" +:+ pretty i) = Some (0, 0))
  ∧ (∀ name, (∀ i, 1 ≤ i ≤ n_inp → name ≠ "I" +:+ pretty i) →
       inputs (circuit sess') !! name = inputs (circuit sess) !! name)
  ∧ gates (circuit sess') = gates (circuit sess)
  ∧ outputs (circuit sess') = outputs (circuit sess).
Proof.
  intros sess'. subst sess'. unfold auto_generate_inputs. simpl.
  split_and!; [| |done..].
  - intros i Hi.
    rewrite (fold_insert_lookup (fun i => "I" +:+ pretty i)).
    rewrite decide_True; [done|].
    apply list_elem_of_fmap. exists i. split; [done|].
    apply elem_of_seqZ. lia.
  - intros name Hname.
    rewrite (fold_insert_lookup (fun i => "I" +:+ pretty i)).
    rewrite decide_False; [done|].
    intros (i & -> & Hi%elem_of_seqZ)%list_elem_of_fmap.
    apply (Hname i); [lia|done].
Qed.

Lemma auto_generate_inputs_spec_witness :
  let sess := mkSession example_circuit [] in
  let sess' := auto_generate_inputs 2 sess in
  (1 ≤ 2 ≤ 2 ∧ inputs (circuit sess') !! ("I" +:+ pretty 2) = Some (0, 0))
  ∧ ((∀ i, 1 ≤ i ≤ 2 → "A" ≠ "I" +:+ pretty i)
     ∧ inputs (circuit sess') !! "A" = inputs (circuit sess) !! "A").
Proof.
  intros sess sess'.
  pose proof (auto_generate_inputs_spec 2 sess) as (H1 & H2 & _).
  assert (Ha : 1 ≤ 2 ≤ 2) by lia.
  assert (Hb : ∀ i, 1 ≤ i ≤ 2 → "A" ≠ "I" +:+ pretty i).
  { intros i Hi. change ("I" +:+ ?x) with (String "I" x). discriminate. }
  exact (conj (conj Ha (H1 2 Ha)) (conj Hb (H2 "A" Hb))).
Defined.

Lemma chosen_signal_spec (choice : string) :
  canonical (chosen_signal choice)
  ∧ (is_data (chosen_signal choice) = true
     ↔ choice = "DATA1" ∨ choice = "DATA0" ∨ choice = "11(quads)").
Proof.
  unfold chosen_signal, canonical.
  destruct (String.eqb_spec choice "11(quads)") as [->|Hq]; simpl.
  { split; [auto|]. split; auto. }
  unfold encode_dual.
  destruct (String.eqb_spec choice "NULL") as [->|?].
  { split; [auto|]. split; [done|]. by intros [|[|]]. }
  destruct (String.eqb_spec choice "DATA1") as [->|?].
  { split; [auto|]. split; auto. }
  destruct (String.eqb_spec choice "DATA0") as [->|?].
  { split; [auto|]. split; auto. }
  split; [auto|]. split; [done|]. by intros [|[|]].
Qed.

(** X14.  "Set input values" keeps the set of inputs and gives each one a
    signal of the code: DATA exactly when its box shows [DATA1], [DATA0] or
    [11(quads)], and NULL for any other choice; gates and outputs are not
    touched. *)
Theorem set_input_values_spec (choice : string → string) (sess : Session) :
  let sess' := set_input_values choice sess in
  dom (inputs (circuit sess')) = dom (inputs (circuit sess))
  ∧ (∀ name v, inputs (circuit sess') !! name = Some v →
       v = chosen_signal (choice name)
       ∧ canonical v
       ∧ (is_data v = true
          ↔ choice name = "DATA1" ∨ choice name = "DATA0"
            ∨ choice name = "11(quads)"))
  ∧ gates (circuit sess') = gates (circuit sess)
  ∧ outputs (circuit sess') = outputs (circuit sess).
Proof.
  intros sess'. subst sess'. unfold set_input_values. simpl.
  split_and!; [| |done..].
  - apply set_eq. intros name. rewrite !elem_of_dom, map_lookup_imap.
    destruct (inputs (circuit sess) !! name); simpl; split;
      intros [? ?]; (done || eauto).
  - intros name v. rewrite map_lookup_imap.
    destruct (inputs (circuit sess) !! name); simpl; [|done].
    intros [= <-]. split; [done|]. apply chosen_signal_spec.
Qed.

Lemma set_input_values_spec_witness :
  let sess := mkSession example_circuit [] in
  let sess' := set_input_values (fun _ => "DATA0") sess in
  inputs (circuit sess') !! "A" = Some (0, 1)
  ∧ (0, 1) = chosen_signal "DATA0"
  ∧ canonical (0, 1)
  ∧ (is_data (0, 1) = true
     ↔ "DATA0" = "DATA1" ∨ "DATA0" = "DATA0" ∨ "DATA0" = "11(quads)").
Proof.
  intros sess sess'.
  pose proof (set_input_values_spec (fun _ => "DATA0") sess) as (_ & H & _).
  assert (Ha : inputs (circuit sess') !! "A" = Some (0, 1))
    by (vm_compute; reflexivity).
  exact (conj Ha (H "A" (0, 1) Ha)).
Defined.

Section EditorProperties.

Variable strip : string → string.

(** X15.  "Add Input" stores NULL under the stripped name, or under
    [in<k+1>] when that is empty and there are [k] inputs, resetting an
    input that was there, so that the number of inputs grows by one exactly
    when the name was new; "Add Output" maps the stripped output name, or
    [OUT<k+1>], to the stripped source, without looking the source up.
    Each leaves every other entry of its map and the rest of the circuit
    as they were. *)
Theorem add_input_output_spec (name src : string) (sess : Session) :
  let key_in :=
    if decide (strip name = "")
    then "in" +:+ pretty (Z.of_nat (size (inputs (circuit sess))) + 1)
    else strip name in
  let key_out :=
    if decide (strip name = "")
    then "OUT" +:+ pretty (Z.of_nat (size (outputs (circuit sess))) + 1)
    else strip name in
  let s_in := add_input strip name sess in
  let s_out := add_output strip name src sess in
  inputs (circuit s_in) !! key_in = Some (0, 0)
  ∧ (∀ other, other ≠ key_in →
       inputs (circuit s_in) !! other = inputs (circuit sess) !! other)
  ∧ size (inputs (circuit s_in))
    = (if decide (is_Some (inputs (circuit sess) !! key_in))
       then size (inputs (circuit sess))
       else S (size (inputs (circuit sess))))
  ∧ gates (circuit s_in) = gates (circuit sess)
  ∧ outputs (circuit s_in) = outputs (circuit sess)
  ∧ outputs (circuit s_out) !! key_out = Some (strip src)
  ∧ (∀ other, other ≠ key_out →
       outputs (circuit s_out) !! other = outputs (circuit sess) !! other)
  ∧ inputs (circuit s_out) = inputs (circuit sess)
  ∧ gates (circuit s_out) = gates (circuit sess).
Proof.
  intros key_in key_out s_in s_out.
  subst key_in key_out s_in s_out. unfold add_input, add_output, str_or. simpl.
  destruct (decide (strip name = "")) as [Hempty|Hname];
    (split_and!; try done;
     [apply lookup_insert_eq
     |by intros other Hne; apply lookup_insert_ne
     |case_decide as Hsome;
      [destruct Hsome as [v Hv]; by eapply map_size_insert_Some
      |apply map_size_insert_None; by apply eq_None_not_Some]
     |apply lookup_insert_eq
     |by intros other Hne; apply lookup_insert_ne]).
Qed.

Lemma dict_set_twice {V : Type} (k : string) (v1 v2 : V) (d : list (string * V)) :
  dict_set k v2 (dict_set k v1 d) = dict_set k v2 d.
Proof.
  induction d as [|[k' v'] d IH]; simpl.
  - by rewrite String.eqb_refl.
  - destruct (String.eqb k' k) eqn:Hk; simpl; rewrite Hk; [done|by rewrite IH].
Qed.

(** X16.  "Add Gate" keeps the gate ids distinct, and adding a gate twice
    under one id stores the later gate in the place of the earlier one:
    the id then holds the second gate, the ids and their order are those
    left by the first addition, every other gate is the one the circuit had
    before, and the whole is what adding the second gate alone would have
    left. *)
Theorem add_gate_ids_distinct (gkind1 gkind2 gid : string) (m1 m2 : Z)
    (raw1 raw2 : string) (d1 d2 : Q) (sess : Session) :
  let once := add_gate strip gkind1 gid m1 raw1 d1 sess in
  let twice := add_gate strip gkind2 gid m2 raw2 d2 once in
  let kindname2 :=
    if String.eqb gkind2 "CUSTOM - THmn" then "THm" +:+ pretty m2 else gkind2 in
  NoDup (gates (circuit sess)).*1 →
  NoDup (gates (circuit once)).*1
  ∧ NoDup (gates (circuit twice)).*1
  ∧ gid ∈ (gates (circuit once)).*1
  ∧ dict_get gid (gates (circuit twice))
    = Some (mkGate gid kindname2 (input_list_of strip raw2) d2)
  ∧ (gates (circuit twice)).*1 = (gates (circuit once)).*1
  ∧ (∀ other, other ≠ gid →
       dict_get other (gates (circuit twice))
       = dict_get other (gates (circuit sess)))
  ∧ twice = add_gate strip gkind2 gid m2 raw2 d2 sess.
Proof.
  intros once twice kindname2 Hnd.
  assert (Hin : gid ∈ (gates (circuit once)).*1).
  { subst once. unfold add_gate. simpl. rewrite dict_set_keys.
    case_decide as Hin; [done|]. apply elem_of_app. right. by left. }
  assert (Hnd1 : NoDup (gates (circuit once)).*1).
  { subst once. unfold add_gate. simpl. rewrite dict_set_keys.
    case_decide as Hin'; [done|].
    apply NoDup_app. split_and!; [done| |apply NoDup_singleton].
    intros x Hx ->%list_elem_of_singleton. done. }
  assert (Hkeys : (gates (circuit twice)).*1 = (gates (circuit once)).*1).
  { subst twice. unfold add_gate at 1. simpl. rewrite dict_set_keys.
    by rewrite decide_True. }
  split_and!; [done|by rewrite Hkeys|done| |done| |].
  - subst twice. unfold add_gate at 1. simpl. rewrite dict_get_set_eq.
    do 2 f_equal. subst kindname2.
    destruct (String.eqb_spec gkind2 "CUSTOM - THmn") as [->|Hne]; done.
  - intros other Hne. subst twice once. unfold add_gate. simpl.
    by rewrite !dict_get_set_ne.
  - subst twice once. unfold add_gate. simpl. by rewrite dict_set_twice.
Qed.

(** X17.  The list of input references that "Add Gate" and the FSM
    simulation build from a comma-separated text holds no empty string,
    each of its items is the stripped form of one piece of the text, in the
    order of the pieces, and it has at most one item per piece. *)
Theorem input_list_of_spec (raw : string) :
  (∀ x, x ∈ input_list_of strip raw →
        x ≠ "" ∧ ∃ piece, piece ∈ split_comma raw ∧ x = strip piece)
  ∧ input_list_of strip raw `sublist_of` strip <$> split_comma raw
  ∧ (length (input_list_of strip raw) ≤ length (split_comma raw))%nat.
Proof.
  unfold input_list_of. split_and!.
  - intros x (piece & -> & [Hne Hin]%list_elem_of_filter)%list_elem_of_fmap.
    eauto.
  - apply fmap_sublist, sublist_filter.
  - rewrite length_fmap. apply length_filter.
Qed.

End EditorProperties.

Lemma add_gate_ids_distinct_witness :
  let sess := mkSession example_circuit [] in
  let once := add_gate strip_ascii "TH12" "G1" 2 "B" 1%Q sess in
  let twice := add_gate strip_ascii "CUSTOM - THmn" "G1" 2 "A, B,A" 1%Q once in
  NoDup (gates (circuit sess)).*1
  ∧ NoDup (gates (circuit once)).*1
  ∧ NoDup (gates (circuit twice)).*1
  ∧ "G1" ∈ (gates (circuit once)).*1
  ∧ dict_get "G1" (gates (circuit twice))
    = Some (mkGate "G1"
              (if String.eqb "CUSTOM - THmn" "CUSTOM - THmn"
               then "THm" +:+ pretty 2 else "CUSTOM - THmn")
              (input_list_of strip_ascii "A, B,A") 1%Q)
  ∧ (gates (circuit twice)).*1 = (gates (circuit once)).*1
  ∧ (∀ other, other ≠ "G1" →
       dict_get other (gates (circuit twice))
       = dict_get other (gates (circuit sess)))
  ∧ twice = add_gate strip_ascii "CUSTOM - THmn" "G1" 2 "A, B,A" 1%Q sess.
Proof.
  intros sess once twice.
  assert (Hnd : NoDup (gates (circuit sess)).*1)
    by (apply (bool_decide_unpack _); vm_compute; exact I).
  exact (conj Hnd
           (add_gate_ids_distinct strip_ascii "TH12" "CUSTOM - THmn" "G1" 2 2
              "B" "A, B,A" 1%Q 1%Q sess Hnd)).
Defined.

Lemma input_list_of_spec_witness :
  "B" ∈ input_list_of strip_ascii "A, B,,G1"
  ∧ "B" ≠ ""
  ∧ ∃ piece, piece ∈ split_comma "A, B,,G1" ∧ "B" = strip_ascii piece.
Proof.
  pose proof (input_list_of_spec strip_ascii "A, B,,G1") as (H & _ & _).
  assert (Hin : "B" ∈ input_list_of strip_ascii "A, B,,G1").
  { vm_compute. apply elem_of_cons. right. apply elem_of_cons. by left. }
  exact (conj Hin (H "B" Hin)).
Defined.

Lemma concat_cons (sep x : string) (l : list string) :
  l ≠ [] → String.concat sep (x :: l) = x +:+ sep +:+ String.concat sep l.
Proof. by destruct l. Qed.

(** X18.  [split(",")] cuts a text at its commas and nowhere else: no piece
    holds a comma, there is always at least one piece, and joining the
    pieces with commas gives the text back. *)
Theorem split_comma_join (s : string) :
  String.concat "," (split_comma s) = s
  ∧ split_comma s ≠ []
  ∧ ∀ piece, piece ∈ split_comma s → occurs "," piece = false.
Proof.
  induction s as [|c s (IHjoin & IHne & IHpieces)]; simpl.
  { split_and!; [done|done|]. by intros piece ->%list_elem_of_singleton. }
  destruct (Ascii.eqb_spec c ",") as [->|Hc].
  - split_and!; [|done|].
    + rewrite concat_cons by done. by rewrite IHjoin.
    + intros piece [->|Hin]%elem_of_cons; [done|by apply IHpieces].
  - destruct (split_comma s) as [|hd tl] eqn:Hsplit; [done|].
    split_and!; [|done|].
    + destruct tl as [|x tl]; simpl in *; [by rewrite IHjoin|].
      by rewrite <- IHjoin.
    + intros piece [->|Hin]%elem_of_cons.
      * cbn [occurs]. rewrite (proj2 (Ascii.eqb_neq c ",")) by done.
        apply IHpieces. by left.
      * apply IHpieces. by right.
Qed.

Lemma split_comma_join_witness :
  "A" ∈ split_comma "A,B" ∧ occurs "," "A" = false.
Proof.
  pose proof (split_comma_join "A,B") as (_ & _ & H).
  assert (Hin : "A" ∈ split_comma "A,B") by (vm_compute; by left).
  exact (conj Hin (H "A" Hin)).
Defined.

(** * Runs and the signals of the code *)

Section Outcome.

Variable int_of_str : string → option Z.

Lemma gate_pass_lookup (gs : list (string * Gate))
    (state state' : gmap string Signal) (changed changed' : bool) (x : string) :
  gate_pass int_of_str gs state changed = Ok (state', changed') →
  state' !! x = state !! x
  ∨ state' !! x = Some (1, 0) ∨ state' !! x = Some (0, 0).
Proof.
  intros Hpass. destruct (decide (x ∈ gs.*1)) as [Hin|Hnin].
  - right. eapply gate_pass_values; [exact Hpass|by left].
  - left. by eapply gate_pass_other.
Qed.

(** X19.  When every input is one of the four signals of the code, so is
    every signal of every snapshot, and so is every final output. *)
Theorem run_keeps_signals_canonical (fuel : nat) (circ : Circuit)
    (history : list Snapshot) (out : res LoopExit) :
  sim_loop int_of_str fuel (gates circ) (inputs circ) [] 0%Q true
  = Some (history, out) →
  (∀ x v, inputs circ !! x = Some v → canonical v) →
  (∀ snap x v, snap ∈ history → signals snap !! x = Some v → canonical v)
  ∧ (∀ ex o v, out = Ok ex →
       final_outputs_of (outputs circ) (exit_state ex) !! o = Some v →
       canonical v).
Proof.
  intros (new & -> & Htrace)%sim_loop_trace Hin. simpl.
  destruct (trace_ok_invariant int_of_str
              (fun s => ∀ x v, s !! x = Some v → canonical v)
              (gates circ) new) with (changed := true) (state := inputs circ)
              (out := out) as [Hsnaps Hexit]; [|done|done|].
  { intros s s' c' Hs Hpass x v Hv.
    destruct (gate_pass_lookup _ _ _ _ _ x Hpass) as [Heq|[Heq|Heq]];
      rewrite Heq in Hv.
    - by eapply Hs.
    - simplify_eq. unfold canonical. auto.
    - simplify_eq. unfold canonical. auto. }
  split.
  - intros snap x v Hsnap. by apply Hsnaps.
  - intros ex o v -> Hv. rewrite final_outputs_lookup in Hv.
    destruct (outputs circ !! o) as [src|]; simplify_eq/=.
    destruct (exit_state ex !! src) as [w|] eqn:Hw; simpl.
    + by eapply Hexit.
    + unfold canonical. auto.
Qed.

(** X20.  What a run ends with is decided by the gates alone: if every
    fixed-kind gate has the references it unpacks, the run ends normally,
    its timeline is the recorded wave history and it has one final output
    per mapped output; otherwise it raises [TypeError] in the first pass,
    with the snapshot of the inputs at time 0 as the whole wave history. *)
Theorem run_outcome_by_arity (fuel : nat) (sess : Session) :
  (40 ≤ fuel)%nat →
  (forallb (fun p => arity_ok p.2) (gates (circuit sess)) = true →
     ∃ sess' rr,
       run_simulation int_of_str fuel sess = Some (sess', Ok rr)
       ∧ circuit sess' = circuit sess
       ∧ timeline rr = wave_history sess'
       ∧ dom (final_outputs rr) = dom (outputs (circuit sess)))
  ∧ (forallb (fun p => arity_ok p.2) (gates (circuit sess)) = false →
     run_simulation int_of_str fuel sess
     = Some (mkSession (circuit sess)
               [mkSnapshot (0 # 1000)%Q (inputs (circuit sess))],
             Raise TypeError)).
Proof.
  intros Hfuel. split; intros Hgs.
  - destruct (sim_loop_bounded int_of_str (gates (circuit sess)) fuel
                (inputs (circuit sess)) [] 0%Q true 0 zero_half_steps)
      as (new & out & Hrun & _); [lia|lia|].
    destruct (sim_loop_ok int_of_str _ _ Hgs _ _ _ _ _ _ Hrun) as [ex ->].
    rewrite run_simulation_unfold, Hrun. simpl.
    eexists _, _. split_and!; [done..|].
    unfold final_outputs_of. apply dom_fmap_L.
  - destruct fuel as [|fuel]; [lia|].
    rewrite run_simulation_unfold.
    by rewrite (sim_loop_raise int_of_str _ fuel _ [] 0%Q Hgs).
Qed.

End Outcome.

Lemma run_keeps_signals_canonical_witness :
  (∀ x v, inputs example_circuit !! x = Some v → canonical v)
  ∧ (∀ snap x v, snap ∈ example_history → signals snap !! x = Some v →
       canonical v)
  ∧ (∀ ex o v, Ok example_exit = Ok ex →
       final_outputs_of (outputs example_circuit) (exit_state ex) !! o = Some v →
       canonical v).
Proof.
  assert (Hin : ∀ x v, inputs example_circuit !! x = Some v → canonical v).
  { intros x v. unfold example_circuit. simpl.
    destruct (decide (x = "B")) as [->|HB].
    { rewrite lookup_insert_eq. intros [= <-]. unfold canonical. auto. }
    rewrite lookup_insert_ne by done.
    destruct (decide (x = "A")) as [->|HA].
    { rewrite lookup_insert_eq. intros [= <-]. unfold canonical. auto. }
    rewrite lookup_insert_ne by done. by rewrite lookup_empty. }
  exact (conj Hin
           (run_keeps_signals_canonical int_ascii 2 example_circuit
              example_history (Ok example_exit) example_loop Hin)).
Defined.

Lemma run_outcome_by_arity_witness :
  (40 ≤ 40)%nat
  ∧ (forallb (fun p => arity_ok p.2) (gates example_circuit) = true
     ∧ ∃ sess' rr,
         run_simulation int_ascii 40 (mkSession example_circuit [])
         = Some (sess', Ok rr)
         ∧ circuit sess' = example_circuit
         ∧ timeline rr = wave_history sess'
         ∧ dom (final_outputs rr) = dom (outputs example_circuit))
  ∧ (forallb (fun p => arity_ok p.2) (gates short_gate_circuit) = false
     ∧ run_simulation int_ascii 40 (mkSession short_gate_circuit [])
       = Some (mkSession short_gate_circuit
                 [mkSnapshot (0 # 1000)%Q (inputs short_gate_circuit)],
               Raise TypeError)).
Proof.
  assert (Hfuel : (40 ≤ 40)%nat) by lia.
  pose proof (run_outcome_by_arity int_ascii 40 (mkSession example_circuit [])
                Hfuel) as [Hok _].
  pose proof (run_outcome_by_arity int_ascii 40 (mkSession short_gate_circuit [])
                Hfuel) as [_ Hbad].
  assert (Ha : forallb (fun p => arity_ok p.2) (gates example_circuit) = true)
    by reflexivity.
  assert (Hb : forallb (fun p => arity_ok p.2) (gates short_gate_circuit) = false)
    by reflexivity.
  exact (conj Hfuel (conj (conj Ha (Hok Ha)) (conj Hb (Hbad Hb)))).
Defined.

(** * The pipeline designer *)

Lemma pipeline_stage_spec (g : string) (wave : Signal) :
  pipeline_stage g wave
  = if passing_stage g && is_data wave then (1, 0) else (0, 0).
Proof.
  unfold pipeline_stage, passing_stage, th12, th22, th23, thmn, count_data.
  simpl.
  destruct (String.eqb g "TH12"), (String.eqb g "TH22"), (String.eqb g "TH23"),
    (is_data wave); reflexivity.
Qed.

Lemma passing_prefix_le (stages : list (string * Q)) :
  (passing_prefix stages ≤ length stages)%nat.
Proof.
  induction stages as [|[g lat] stages IH]; simpl; [done|].
  destruct (passing_stage g); lia.
Qed.

Lemma pipeline_loop_spec (stages : list (string * Q)) :
  ∀ (idx : nat) (wave : Signal) (timeline : list (string * string)) (count : Z),
    let k := if is_data wave then passing_prefix stages else 0%nat in
    ∃ entries,
      (pipeline_loop idx stages wave timeline count).1
      = (timeline ++ entries)%list
      ∧ entries.*2
        = (replicate k "DATA1(10)"
           ++ replicate (length stages - k) "NULL(00)")%list
      ∧ (pipeline_loop idx stages wave timeline count).2
        = count + Z.of_nat (length stages - k).
Proof.
  induction stages as [|[g lat] stages IH]; intros idx wave timeline count k.
  - exists []. subst k. simpl. rewrite app_nil_r.
    destruct (is_data wave); simpl; split_and!; (done || lia).
  - cbn [pipeline_loop]. rewrite pipeline_stage_spec.
    pose proof (passing_prefix_le stages) as Hle.
    destruct (passing_stage g && is_data wave) eqn:Hpass.
    + apply andb_true_iff in Hpass as [Hg Hw].
      edestruct (IH (S idx) (1, 0)) as (entries & H1 & H2 & H3).
      eexists (_ :: entries). rewrite H1, H3, <- app_assoc.
      subst k. rewrite Hw. cbn [passing_prefix]. rewrite Hg.
      split_and!; [done| |simpl; lia].
      rewrite fmap_cons, H2. reflexivity.
    + edestruct (IH (S idx) (0, 0)) as (entries & H1 & H2 & H3).
      eexists (_ :: entries). rewrite H1, H3, <- app_assoc.
      assert (k = 0%nat) as ->.
      { subst k. destruct (is_data wave); [|done].
        cbn [passing_prefix]. by destruct (passing_stage g). }
      split_and!; [done| |simpl; lia].
      rewrite fmap_cons, H2. simpl. by rewrite Nat.sub_0_r.
Qed.

(** X21.  The pipeline passes a DATA wave through the stages at its front
    that are [TH12], [TH22] or [TH23], each showing DATA1, and from the
    first other stage on, or from the start if the input is NULL, every
    stage shows NULL; the NULL-cycle count is the number of those stages,
    and the timeline has one entry per stage. *)
Theorem pipeline_outcome (stages : list (string * Q)) (choice : string) :
  let k := if is_data (encode_dual choice) then passing_prefix stages
           else 0%nat in
  (simulate_pipeline stages choice).1.*2
  = (replicate k "DATA1(10)" ++ replicate (length stages - k) "NULL(00)")%list
  ∧ (simulate_pipeline stages choice).2 = Z.of_nat (length stages - k)
  ∧ length (simulate_pipeline stages choice).1 = length stages
  ∧ (k ≤ length stages)%nat.
Proof.
  intros k. unfold simulate_pipeline.
  destruct (pipeline_loop_spec stages 0 (encode_dual choice) [] 0)
    as (entries & H1 & H2 & H3).
  fold k in H2, H3.
  assert (Hk : (k ≤ length stages)%nat).
  { subst k. pose proof (passing_prefix_le stages).
    destruct (is_data (encode_dual choice)); lia. }
  rewrite H1, H3. simpl. split_and!; [done|lia| |done].
  rewrite <- (length_fmap snd), H2, length_app, !length_replicate. lia.
Qed.

Lemma pipeline_outcome_witness :
  let stages := [("TH12", 1%Q); ("THm2", 1%Q); ("TH22", 1%Q)] in
  (simulate_pipeline stages "DATA0").1.*2
  = ["DATA1(10)"; "NULL(00)"; "NULL(00)"]
  ∧ (simulate_pipeline stages "DATA0").2 = 2.
Proof.
  intros stages.
  pose proof (pipeline_outcome stages "DATA0") as (H1 & H2 & _).
  exact (conj H1 H2).
Defined.

(** * The FSM designer *)

Lemma find_transition_first (trs : list Transition) (state inp : string)
    (tr : Transition) :
  find_transition trs state inp = Some tr ↔
  ∃ before after,
    trs = (before ++ tr :: after)%list
    ∧ tr_from tr = Some state ∧ tr_in tr = Some inp
    ∧ ∀ tr', tr' ∈ before →
        ¬ (tr_from tr' = Some state ∧ tr_in tr' = Some inp).
Proof.
  induction trs as [|t trs IH]; simpl.
  - split; [done|]. intros (before & after & Heq & _). by destruct before.
  - destruct (decide (tr_from t = Some state ∧ tr_in t = Some inp)) as [Hm|Hm].
    + split.
      * intros [= <-]. exists [], trs. destruct Hm. split_and!; try done.
        by intros ? ?%elem_of_nil.
      * intros (before & after & Heq & Hf & Hi & Hnone).
        destruct before as [|b before]; simplify_eq/=; [done|].
        destruct (Hnone b); [by left|done].
    + rewrite IH. split.
      * intros (before & after & -> & Hf & Hi & Hnone).
        exists (t :: before), after. split_and!; try done.
        by intros tr' [->|?]%elem_of_cons; [|apply Hnone].
      * intros (before & after & Heq & Hf & Hi & Hnone).
        destruct before as [|b before]; simplify_eq/=; [by destruct Hm|].
        exists before, after. split_and!; try done.
        intros tr' Hin. apply Hnone. by right.
Qed.

Lemma find_transition_none (trs : list Transition) (state inp : string) :
  (∀ tr, tr ∈ trs → tr_from tr ≠ Some state ∨ tr_in tr ≠ Some inp) →
  find_transition trs state inp = None.
Proof.
  induction trs as [|t trs IH]; intros Hnone; simpl; [done|].
  rewrite decide_False.
  - apply IH. intros tr Hin. apply Hnone. by right.
  - intros [Hf Hi]. destruct (Hnone t); [by left|done..].
Qed.

Lemma fsm_loop_spec (fsm : FSM) (seq : list string) :
  ∀ (state : string) (out_log : list string),
    ∃ outs,
      (fsm_loop fsm seq state out_log).2 = (out_log ++ outs)%list
      ∧ length outs = length seq
      ∧ ((fsm_loop fsm seq state out_log).1 = state
         ∨ (fsm_loop fsm seq state out_log).1
           ∈ omap tr_to (fsm_transitions fsm))
      ∧ (fsm_type fsm = "Mealy" →
         ∀ o, o ∈ outs → o = "NULL" ∨ o ∈ omap tr_out (fsm_transitions fsm)).
Proof.
  induction seq as [|inp seq IH]; intros state out_log.
  - exists []. simpl. rewrite app_nil_r. split_and!; auto.
    by intros _ ? ?%elem_of_nil.
  - cbn [fsm_loop]. destruct (fsm_step fsm state inp) as [state' out] eqn:Hstep.
    destruct (IH state' (out_log ++ [out])%list) as (outs & H1 & H2 & H3 & H4).
    exists (out :: outs). rewrite H1, <- app_assoc. simpl.
    unfold fsm_step in Hstep.
    destruct (find_transition (fsm_transitions fsm) state inp) as [tr|] eqn:Hfind;
      simplify_eq/=.
    + apply find_transition_first in Hfind
        as (before & after & Htrs & _ & _ & _).
      assert (Htr : tr ∈ fsm_transitions fsm).
      { rewrite Htrs. apply elem_of_app. right. by left. }
      split_and!; [done|by rewrite H2| |].
      * destruct H3 as [H3|H3]; [|by right].
        rewrite H3. destruct (tr_to tr) as [to|] eqn:Hto; simpl; [|by left].
        right. apply list_elem_of_omap. eauto.
      * intros Hmealy o [->|Hin]%elem_of_cons; [|by apply H4].
        rewrite Hmealy. simpl.
        destruct (tr_out tr) as [o|] eqn:Ho; simpl; [|by left].
        right. apply list_elem_of_omap. eauto.
    + split_and!; [done|by rewrite H2|done|].
      intros Hmealy o [->|Hin]%elem_of_cons; [by left|by apply H4].
Qed.

Lemma slice_to_length {A : Type} (steps : Z) (seq : list A) :
  0 ≤ steps → length (slice_to steps seq) = Nat.min (Z.to_nat steps) (length seq).
Proof.
  intros Hsteps. unfold slice_to.
  rewrite (proj2 (Z.leb_le _ _)) by done. apply length_take.
Qed.

(** X22.  The FSM simulation logs one output per input it reads, and it
    reads the first [steps] items of the input sequence; the state it ends
    in is the start state or the target of some transition, and a Mealy
    machine only ever logs [NULL] or the output of some transition. *)
Theorem run_fsm_spec (strip : string → string) (fsm : FSM) (steps : Z)
    (inps : string) :
  let seq := input_list_of strip inps in
  let r := run_fsm strip fsm steps inps in
  length r.2 = length (slice_to steps seq)
  ∧ (0 ≤ steps → length r.2 = Nat.min (Z.to_nat steps) (length seq))
  ∧ (r.1 = fsm_start fsm ∨ r.1 ∈ omap tr_to (fsm_transitions fsm))
  ∧ (fsm_type fsm = "Mealy" →
     ∀ o, o ∈ r.2 → o = "NULL" ∨ o ∈ omap tr_out (fsm_transitions fsm)).
Proof.
  intros seq r. subst r. unfold run_fsm. fold seq.
  destruct (fsm_loop_spec fsm (slice_to steps seq) (fsm_start fsm) [])
    as (outs & H1 & H2 & H3 & H4).
  rewrite H1. simpl. split_and!; [done| |done|done].
  intros Hsteps. by rewrite H2, slice_to_length.
Qed.

(** X23.  One round of the FSM simulation takes the first transition, in
    the order of the array, whose [from] is the current state and whose
    [in] is the input, and ignores the later ones; the machine moves to its
    [to] (or stays, if it has none), and the logged output is the
    transition's [out] for a Mealy machine and, for any other type, the label of the
    output of the state the machine was in before the move.  Without such a
    transition the machine stays and logs [NULL]. *)
Theorem fsm_step_first_match (fsm : FSM) (state inp : string)
    (before after : list Transition) (tr : Transition) :
  (fsm_transitions fsm = (before ++ tr :: after)%list →
   tr_from tr = Some state → tr_in tr = Some inp →
   (∀ tr', tr' ∈ before →
      ¬ (tr_from tr' = Some state ∧ tr_in tr' = Some inp)) →
   fsm_step fsm state inp
   = (default state (tr_to tr),
      if String.eqb (fsm_type fsm) "Mealy" then default "NULL" (tr_out tr)
      else moore_output fsm state))
  ∧ ((∀ tr', tr' ∈ fsm_transitions fsm →
        tr_from tr' ≠ Some state ∨ tr_in tr' ≠ Some inp) →
     fsm_step fsm state inp = (state, "NULL")).
Proof.
  split.
  - intros Htrs Hf Hi Hnone. unfold fsm_step.
    assert (Hfind : find_transition (fsm_transitions fsm) state inp = Some tr).
    { apply find_transition_first. exists before, after. done. }
    by rewrite Hfind.
  - intros Hnone. unfold fsm_step. by rewrite find_transition_none.
Qed.

Lemma fsm_loop_idle (fsm : FSM) (seq : list string) (state : string) :
  (∀ tr, tr ∈ fsm_transitions fsm → tr_from tr ≠ Some state) →
  ∀ out_log,
    fsm_loop fsm seq state out_log
    = (state, (out_log ++ replicate (length seq) "NULL")%list).
Proof.
  intros Hnone. induction seq as [|inp seq IH]; intros out_log; simpl.
  - by rewrite app_nil_r.
  - unfold fsm_step. rewrite find_transition_none by (intros tr Htr; left; auto).
    by rewrite IH, <- app_assoc.
Qed.

(** X24.  A machine that has no transition out of its start state, one
    without transitions for instance, never leaves it and logs [NULL] for
    every input it reads. *)
Theorem run_fsm_idle (strip : string → string) (fsm : FSM) (steps : Z)
    (inps : string) :
  (∀ tr, tr ∈ fsm_transitions fsm → tr_from tr ≠ Some (fsm_start fsm)) →
  run_fsm strip fsm steps inps
  = (fsm_start fsm,
     replicate (length (slice_to steps (input_list_of strip inps))) "NULL").
Proof. intros Hnone. unfold run_fsm. by rewrite fsm_loop_idle. Qed.

Lemma run_fsm_spec_witness :
  let r := run_fsm strip_ascii sample_fsm 3 "1, 1,0,1" in
  (0 ≤ 3 ∧ length r.2 = Nat.min (Z.to_nat 3)
                          (length (input_list_of strip_ascii "1, 1,0,1")))
  ∧ (fsm_type sample_fsm = "Mealy"
     ∧ ∀ o, o ∈ r.2 →
         o = "NULL" ∨ o ∈ omap tr_out (fsm_transitions sample_fsm)).
Proof.
  intros r.
  pose proof (run_fsm_spec strip_ascii sample_fsm 3 "1, 1,0,1")
    as (_ & H1 & _ & H2).
  assert (Ha : 0 ≤ 3) by lia.
  assert (Hb : fsm_type sample_fsm = "Mealy") by reflexivity.
  exact (conj (conj Ha (H1 Ha)) (conj Hb (H2 Hb))).
Defined.

Lemma fsm_step_first_match_witness :
  fsm_step sample_fsm "S0" "1" = ("S1", "DATA1")
  ∧ fsm_step sample_fsm "S0" "0" = ("S0", "NULL").
Proof.
  pose proof (fsm_step_first_match sample_fsm "S0" "1" []
                [mkTransition (Some "S1") (Some "1") (Some "S0") (Some "DATA0")]
                (mkTransition (Some "S0") (Some "1") (Some "S1") (Some "DATA1")))
    as [H1 _].
  pose proof (fsm_step_first_match sample_fsm "S0" "0" [] []
                (mkTransition None None None None)) as [_ H2].
  split.
  - apply H1; [reflexivity..|]. by intros ? ?%elem_of_nil.
  - apply H2. intros tr' Hin. right. simpl in Hin.
    apply elem_of_cons in Hin as [->|Hin]; [discriminate|].
    apply elem_of_cons in Hin as [->|Hin]; [discriminate|].
    by apply elem_of_nil in Hin.
Defined.

Lemma run_fsm_idle_witness :
  let fsm := mkFSM "Moore" ∅ "S0" [] in
  (∀ tr, tr ∈ fsm_transitions fsm → tr_from tr ≠ Some (fsm_start fsm))
  ∧ run_fsm strip_ascii fsm 6 "1,1,0,1"
    = ("S0", replicate
               (length (slice_to 6 (input_list_of strip_ascii "1,1,0,1")))
               "NULL").
Proof.
  intros fsm.
  assert (H : ∀ tr, tr ∈ fsm_transitions fsm → tr_from tr ≠ Some (fsm_start fsm))
    by (by intros ? ?%elem_of_nil).
  exact (conj H (run_fsm_idle strip_ascii fsm 6 "1,1,0,1" H)).
Defined.

(** * What the kinds compute *)

Lemma data_inputs_gather_pos (srcs : list string) (state : gmap string Signal) :
  1 ≤ data_inputs (gather srcs state)
  ↔ ∃ src, src ∈ srcs ∧ carries_data state src = true.
Proof.
  induction srcs as [|s0 srcs IH].
  { simpl gather. change (data_inputs []) with 0.
    split; [lia|]. by intros (? & ?%elem_of_nil & _). }
  rewrite gather_cons, data_inputs_cons. fold (carries_data state s0).
  pose proof (data_inputs_bounds (gather srcs state)) as Hb.
  destruct (carries_data state s0) eqn:Hs0.
  - split; [|lia]. intros _. exists s0. split; [by left|done].
  - rewrite Z.add_0_l, IH. split.
    + intros (src & Hin & Hsrc). exists src. split; [by right|done].
    + intros (src & [->|Hin]%elem_of_cons & Hsrc); [congruence|eauto].
Qed.

Lemma data_inputs_gather_all (srcs : list string) (state : gmap string Signal) :
  Z.of_nat (length srcs) ≤ data_inputs (gather srcs state)
  ↔ ∀ src, src ∈ srcs → carries_data state src = true.
Proof.
  induction srcs as [|s0 srcs IH].
  { simpl gather. change (data_inputs []) with 0. simpl length.
    split; [by intros _ ? ?%elem_of_nil|lia]. }
  rewrite gather_cons, data_inputs_cons. fold (carries_data state s0).
  pose proof (data_inputs_bounds (gather srcs state)) as Hb.
  rewrite gather_length in Hb. simpl length.
  destruct (carries_data state s0) eqn:Hs0.
  - split.
    + intros Hall src [->|Hin]%elem_of_cons; [done|]. apply IH; [lia|done].
    + intros Hall. assert (Z.of_nat (length srcs) ≤ data_inputs (gather srcs state)).
      { apply IH. intros src Hin. apply Hall. by right. }
      lia.
  - split; [lia|]. intros Hall. rewrite Hall in Hs0; [done|by left].
Qed.

(** X25.  What a gate of a kind other than the three fixed ones computes.
    A generic kind whose threshold [int] reads as [m] fires exactly when at
    least [m] of its references carry DATA; a generic kind that [int]
    rejects fires exactly when it has a reference and all its references
    carry DATA; and any other kind fires exactly when one of its
    references carries DATA.  None of them raises. *)
Theorem other_kinds_spec (int_of_str : string → option Z) (g : Gate)
    (state : gmap string Signal) :
  (∀ m, startswith_THm (kind g) = true →
        int_of_str (replace_THm (kind g)) = Some m →
        evaluate_gate int_of_str g state
        = Ok (if m <=? data_inputs (gather (gate_inputs g) state)
              then (1, 0) else (0, 0)))
  ∧ (startswith_THm (kind g) = true →
     int_of_str (replace_THm (kind g)) = None →
     (evaluate_gate int_of_str g state = Ok (1, 0)
      ∨ evaluate_gate int_of_str g state = Ok (0, 0))
     ∧ (evaluate_gate int_of_str g state = Ok (1, 0)
        ↔ gate_inputs g ≠ []
          ∧ ∀ src, src ∈ gate_inputs g → carries_data state src = true))
  ∧ (startswith_THm (kind g) = false →
     kind g ≠ "TH22" → kind g ≠ "TH12" → kind g ≠ "TH23" →
     (evaluate_gate int_of_str g state = Ok (1, 0)
      ∨ evaluate_gate int_of_str g state = Ok (0, 0))
     ∧ (evaluate_gate int_of_str g state = Ok (1, 0)
        ↔ ∃ src, src ∈ gate_inputs g ∧ carries_data state src = true)).
Proof.
  split_and!.
  - intros m Hpre Hint. unfold evaluate_gate. rewrite Hpre, Hint.
    unfold thmn. by rewrite count_data_filter.
  - intros Hpre Hint. unfold evaluate_gate. rewrite Hpre, Hint.
    split; [destruct (thmn_range (gather (gate_inputs g) state)
              (Z.max 1 (Z.of_nat (length (gather (gate_inputs g) state)))))
              as [-> | ->]; auto|].
    rewrite gather_length. split.
    + intros [= Hfire%thmn_fires_iff].
      pose proof (data_inputs_bounds (gather (gate_inputs g) state)) as Hb.
      rewrite gather_length in Hb. split.
      * intros Hnil. rewrite Hnil in Hfire. simpl gather in Hfire.
        change (data_inputs []) with 0 in Hfire. simpl length in Hfire. lia.
      * apply data_inputs_gather_all. lia.
    + intros [Hne Hall%data_inputs_gather_all]. f_equal. apply thmn_fires_iff.
      destruct (gate_inputs g); [done|]. simpl length in *. lia.
  - intros Hpre H22%String.eqb_neq H12%String.eqb_neq H23%String.eqb_neq.
    unfold evaluate_gate. rewrite Hpre, H22, H12, H23.
    split; [destruct (thmn_range (gather (gate_inputs g) state) 1)
              as [-> | ->]; auto|].
    rewrite <- data_inputs_gather_pos. split.
    + by intros [= Hfire%thmn_fires_iff].
    + intros Hpos. f_equal. by apply thmn_fires_iff.
Qed.

Lemma other_kinds_spec_witness :
  let state := inputs example_circuit in
  evaluate_gate int_ascii (mkGate "G" "THm2" ["A"; "B"; "C"] 1%Q) state
  = Ok (if 2 <=? data_inputs (gather ["A"; "B"; "C"] state)
        then (1, 0) else (0, 0))
  ∧ (evaluate_gate int_ascii (mkGate "G" "THmx" ["A"; "B"] 1%Q) state = Ok (1, 0)
     ↔ ["A"; "B"] ≠ []
       ∧ ∀ src, src ∈ ["A"; "B"] → carries_data state src = true)
  ∧ (evaluate_gate int_ascii (mkGate "G" "CUSTOM" ["A"; "C"] 1%Q) state = Ok (1, 0)
     ↔ ∃ src, src ∈ ["A"; "C"] ∧ carries_data state src = true).
Proof.
  intros state.
  pose proof (other_kinds_spec int_ascii (mkGate "G" "THm2" ["A"; "B"; "C"] 1%Q)
                state) as (H1 & _ & _).
  pose proof (other_kinds_spec int_ascii (mkGate "G" "THmx" ["A"; "B"] 1%Q)
                state) as (_ & H2 & _).
  pose proof (other_kinds_spec int_ascii (mkGate "G" "CUSTOM" ["A"; "C"] 1%Q)
                state) as (_ & _ & H3).
  split_and!.
  - apply (H1 2); [reflexivity|vm_compute; reflexivity].
  - apply H2; [reflexivity|vm_compute; reflexivity].
  - apply H3; [reflexivity|discriminate..].
Defined.

(** * Generic kinds that [int] rejects *)

Lemma replace_THm_without (s : string) :
  contains_THm s = false → replace_THm s = s.
Proof.
  induction s as [|c s IH]; [done|].
  destruct c as [[] [] [] [] [] [] [] []]; simpl in *;
    try (intros H; f_equal; auto; fail).
  destruct s as [|c2 s2]; [done|].
  destruct c2 as [[] [] [] [] [] [] [] []]; simpl in *;
    try (intros H; f_equal; auto; fail).
  destruct s2 as [|c3 s3]; [done|].
  destruct c3 as [[] [] [] [] [] [] [] []]; simpl in *;
    try discriminate; try (intros H; f_equal; auto; fail).
Qed.

(** C9 as the claim has it fails: the kind [THm1THm2] starts with [THm]
    and what follows, [1THm2], is no integer, yet the gate is not evaluated
    with the threshold [max(1, 2) = 2], at which it would fire on two DATA
    inputs: [replace] also takes out the inner [THm], [int] reads 12, and
    the gate returns NULL. *)
Lemma inner_THm_kind_counterexample :
  let g := mkGate "G" "THm1THm2" ["A"; "B"] 1%Q in
  let state := inputs example_circuit in
  let sigs := gather (gate_inputs g) state in
  startswith_THm (kind g) = true
  ∧ kind g = "THm" +:+ "1THm2"
  ∧ int_ascii "1THm2" = None
  ∧ int_ascii (replace_THm (kind g)) = Some 12
  ∧ thmn sigs (Z.max 1 (Z.of_nat (length sigs))) = (1, 0)
  ∧ evaluate_gate int_ascii g state = Ok (0, 0)
  ∧ evaluate_gate int_ascii g state
    ≠ Ok (thmn sigs (Z.max 1 (Z.of_nat (length sigs)))).
Proof. vm_compute. split_and!; (reflexivity || discriminate). Qed.

(** C9, amended.  Let the kind of a gate be [THm] followed by a remainder.
    [evaluate_gate] hands to [int] the remainder with every occurrence of
    [THm] taken out, which is the remainder itself when [THm] does not
    occur in it.  When [int] rejects that text, [evaluate_gate] does not
    raise: it evaluates the gate by [thmn] on the gathered signals, one per
    input reference, with threshold [max(1, len(sigs))], so that the gate
    fires exactly when it has an input reference and every one of its
    references carries DATA. *)
Theorem generic_kind_fallback (int_of_str : string → option Z) (g : Gate)
    (state : gmap string Signal) (rest : string) :
  let sigs := gather (gate_inputs g) state in
  kind g = "THm" +:+ rest →
  replace_THm (kind g) = replace_THm rest
  ∧ (contains_THm rest = false → replace_THm (kind g) = rest)
  ∧ ((int_of_str (replace_THm rest) = None
      ∨ (contains_THm rest = false ∧ int_of_str rest = None)) →
     evaluate_gate int_of_str g state
     = Ok (thmn sigs (Z.max 1 (Z.of_nat (length sigs))))
     ∧ length sigs = length (gate_inputs g)
     ∧ (evaluate_gate int_of_str g state = Ok (1, 0)
        ∨ evaluate_gate int_of_str g state = Ok (0, 0))
     ∧ (evaluate_gate int_of_str g state = Ok (1, 0)
        ↔ gate_inputs g ≠ []
          ∧ ∀ src, src ∈ gate_inputs g → carries_data state src = true)).
Proof.
  intros sigs Hkind.
  assert (Hrepl : replace_THm (kind g) = replace_THm rest)
    by (rewrite Hkind; reflexivity).
  assert (Hpre : startswith_THm (kind g) = true)
    by (rewrite Hkind; destruct rest; reflexivity).
  split; [done|]. split.
  { intros Hnone. by rewrite Hrepl, replace_THm_without. }
  intros Hrej.
  assert (Hint : int_of_str (replace_THm (kind g)) = None).
  { rewrite Hrepl. destruct Hrej as [Hrej|[Hnone Hrej]]; [done|].
    by rewrite replace_THm_without. }
  destruct (malformed_generic_kind_fallback int_of_str g state Hpre Hint)
    as [Heval Hlen].
  fold sigs in Heval, Hlen. split; [done|]. split; [done|].
  rewrite Heval. split.
  { destruct (thmn_range sigs (Z.max 1 (Z.of_nat (length sigs))))
      as [-> | ->]; auto. }
  rewrite Hlen. subst sigs. split.
  - intros [= Hfire%thmn_fires_iff].
    pose proof (data_inputs_bounds (gather (gate_inputs g) state)) as Hb.
    rewrite gather_length in Hb. split.
    + intros Hnil. rewrite Hnil in Hfire. simpl gather in Hfire.
      change (data_inputs []) with 0 in Hfire. simpl length in Hfire. lia.
    + apply data_inputs_gather_all. lia.
  - intros [Hne Hall%data_inputs_gather_all]. f_equal. apply thmn_fires_iff.
    destruct (gate_inputs g); [done|]. simpl length in *. lia.
Qed.

Lemma generic_kind_fallback_witness :
  let g := mkGate "G1" "THmx" ["A"; "B"] 1%Q in
  let state := inputs example_circuit in
  let sigs := gather (gate_inputs g) state in
  kind g = "THm" +:+ "x"
  ∧ (int_ascii (replace_THm "x") = None
     ∨ (contains_THm "x" = false ∧ int_ascii "x" = None))
  ∧ evaluate_gate int_ascii g state
    = Ok (thmn sigs (Z.max 1 (Z.of_nat (length sigs))))
  ∧ length sigs = length (gate_inputs g)
  ∧ (evaluate_gate int_ascii g state = Ok (1, 0)
     ∨ evaluate_gate int_ascii g state = Ok (0, 0))
  ∧ (evaluate_gate int_ascii g state = Ok (1, 0)
     ↔ gate_inputs g ≠ []
       ∧ ∀ src, src ∈ gate_inputs g → carries_data state src = true).
Proof.
  intros g state sigs.
  assert (Hkind : kind g = "THm" +:+ "x") by reflexivity.
  assert (Hrej : int_ascii (replace_THm "x") = None
                 ∨ (contains_THm "x" = false ∧ int_ascii "x" = None)).
  { right. split; vm_compute; reflexivity. }
  pose proof (generic_kind_fallback int_ascii g state "x" Hkind) as (_ & _ & H).
  exact (conj Hkind (conj Hrej (H Hrej))).
Defined.
